(** * siesta: the producer's send path and its topic metadata cache

    A shallow embedding of [kafka_producer.go]: the two stock serializers,
    the TTL cache of partition lists in front of the Connector, and the
    [Send] pipeline that ends on the accumulator's ingress channel.

    Runs are single goroutine runs.  Everything a method touches outside
    its arguments (the producer object, the wall clock, the channels made
    so far) is threaded through a state monad; a channel write that
    would block for ever is the one way such a run can fail to return. *)

From Stdlib Require Import ZArith Lia.
From stdpp Require Import base option list gmap strings.

Local Open Scope Z_scope.

(** ** Go values *)

Definition int32 := Z.
Definition int64 := Z.

(** [time.Time] as an instant counted in nanoseconds, [time.Duration] as
    a signed count of nanoseconds. *)
Definition Time := Z.
Definition Duration := Z.

(** A slice is [nil] or a sequence of elements; [[]byte("")] and
    [make([]int32, 0)] are empty and not [nil]. *)
Definition slice (A : Type) : Type := option (list A).

(** What an [interface{}] can hold, by dynamic type.  [VInt] and [VBool]
    stand for every dynamic type other than [[]byte] and [string]. *)
Inductive GoValue : Type :=
| VNil
| VBytes (array : slice Byte.byte)
| VString (str : string)
| VInt (n : Z)
| VBool (b : bool).

(** The values of type [error] this file builds with [fmt.Errorf], and the
    ones handed over by a collaborator.  The nil error is [None]. *)
Inductive error : Type :=
| CantSerialize (value : GoValue)
| CantSerializeToString (value : GoValue)
| CouldNotGetTopicMetadata (topic : string)
| ForeignError (msg : string).

Definition chan := nat.

Record RecordMetadata := mkRecordMetadata {
  Offset : int64;
  rm_Topic : string;
  rm_Partition : int32;
  Error : option error
}.

Record ProducerRecord := mkProducerRecord {
  Topic : string;
  Key : GoValue;
  Value : GoValue;
  metadataChan : option chan;
  partition : int32;
  encodedKey : slice Byte.byte;
  encodedValue : slice Byte.byte
}.

(** [new(RecordMetadata)] *)
Definition new_RecordMetadata : RecordMetadata :=
  {| Offset := 0; rm_Topic := ""; rm_Partition := 0; Error := None |}.

Definition with_Error (err : option error) (m : RecordMetadata) : RecordMetadata :=
  {| Offset := Offset m; rm_Topic := rm_Topic m; rm_Partition := rm_Partition m;
     Error := err |}.

Definition with_encoded (k v : slice Byte.byte) (r : ProducerRecord) : ProducerRecord :=
  {| Topic := Topic r; Key := Key r; Value := Value r;
     metadataChan := metadataChan r; partition := partition r;
     encodedKey := k; encodedValue := v |}.

Definition with_partition (p : int32) (r : ProducerRecord) : ProducerRecord :=
  {| Topic := Topic r; Key := Key r; Value := Value r;
     metadataChan := metadataChan r; partition := p;
     encodedKey := encodedKey r; encodedValue := encodedValue r |}.

Definition with_metadataChan (c : chan) (r : ProducerRecord) : ProducerRecord :=
  {| Topic := Topic r; Key := Key r; Value := Value r;
     metadataChan := Some c; partition := partition r;
     encodedKey := encodedKey r; encodedValue := encodedValue r |}.

(** A record as the application builds it: the unexported fields zero. *)
Definition record_of (topic : string) (key value : GoValue) : ProducerRecord :=
  {| Topic := topic; Key := key; Value := value;
     metadataChan := None; partition := 0;
     encodedKey := None; encodedValue := None |}.

(** ** Serializers *)

Definition Serializer := GoValue → slice Byte.byte * option error.

Definition ByteSerializer : Serializer := λ value,
  match value with
  | VNil => (None, None)
  | VBytes array => (array, None)
  | _ => (None, Some (CantSerialize value))
  end.

Definition StringSerializer : Serializer := λ value,
  match value with
  | VString str => (Some (String.list_byte_of_string str), None)
  | _ => (None, Some (CantSerializeToString value))
  end.

(** ** The Connector's reply *)

(** Modelled from the spec: the reply type of [Connector.GetTopicMetadata]
    is declared outside [kafka_producer.go]; section 6 gives it as topics
    with their partition IDs, and these are the fields [Refresh] reads. *)
Record PartitionMetadata := { PartitionID : int32 }.

Record TopicMetadata := {
  tm_Topic : string;
  PartitionsMetadata : list PartitionMetadata
}.

Record TopicMetadataResponse := { TopicsMetadata : list TopicMetadata }.

(** ** Collaborators behind interfaces *)

(** [Connector.GetTopicMetadata(topics)] on a connector in state [C]:
    a reply or an error, and the connector afterwards. *)
Class Connector (C : Type) :=
  GetTopicMetadata : list string → C → (TopicMetadataResponse + error) * C.

(** [Partitioner.Partition(record, partitions)]. *)
Class Partitioner (P : Type) :=
  Partition : ProducerRecord → slice int32 → P → (int32 * option error) * P.

(** [time.Now()]: a reading, and the clock afterwards. *)
Class Clock (K : Type) :=
  Now : K → Time * K.

(** ** Channels of [*RecordMetadata] *)

Record Chan := { cap : nat; buf : list RecordMetadata }.

(** ** Calls a run makes, in order

    [EvGetTopicMetadata topics err] is a call of the Connector and the
    error it came back with; the other events are logged as the call is
    made. *)

Inductive Event : Type :=
| EvKeySerializer (value : GoValue)
| EvValueSerializer (value : GoValue)
| EvCacheGet (topic : string)
| EvLock
| EvGetTopicMetadata (topics : list string) (err : option error)
| EvUnlock
| EvPartition (partitions : slice int32)
| EvAddChan (record : ProducerRecord)
| EvAccumulatorClose.

Definition is_fetch (e : Event) : bool :=
  match e with EvGetTopicMetadata _ _ => true | _ => false end.

(** Number of Connector fetches in a log. *)
Definition fetches (tr : list Event) : nat := length (filter is_fetch tr).

(** ** The cache entry *)

Record topicMetadataCacheEntry := {
  partitions : slice int32;
  timestamp : Time
}.

(** [time.Duration(ms) * time.Millisecond], an int64 product. *)
Definition wrap64 (z : Z) : Z := (z + 2 ^ 63) mod 2 ^ 64 - 2 ^ 63.
Definition Millisecond : Duration := 1000000.
Definition Duration_of_ms (ms : int64) : Duration := wrap64 (ms * Millisecond).

(** [t.Add(d).Before(u)].  Instants are unbounded here: the ends of
    [time.Time]'s range, where Go's [Add] saturates, are not represented. *)
Definition Add (t : Time) (d : Duration) : Time := t + d.
Definition Before (t u : Time) : bool := t <? u.

(** Modelled from the spec: [RecordAccumulator] is declared outside
    [kafka_producer.go].  Section 6 gives its ingress as a channel the
    pipeline writes to and never reads, and [close()] as a request to
    shut down: [addChan] lists the records sent on the channel, oldest
    first, and [closing] says whether [close()] has been called. *)
Record RecordAccumulator := {
  addChan : list ProducerRecord;
  closing : bool
}.

(** ** The monad of runs

    A run from a state either returns a value and the state it leaves, or
    never returns ([None]): the only such runs here block on a channel
    write that nobody can take. *)

Definition M (S A : Type) : Type := S → option (A * S).

Definition ret {S A} (a : A) : M S A := λ st, Some (a, st).

Definition bind {S A B} (m : M S A) (k : A → M S B) : M S B := λ st,
  match m st with
  | Some (a, st') => k a st'
  | None => None
  end.

(** [x ← m; k] and [m;; k] below are stdpp's notations for [bind]. *)
#[global] Instance M_ret {S} : MRet (M S) := λ A, ret.
#[global] Instance M_bind {S} : MBind (M S) := λ A B k m, bind m k.

(** [for _, x := range l { body x }] *)
Fixpoint range {S A} (l : list A) (body : A → M S unit) : M S unit :=
  match l with
  | [] => ret tt
  | x :: l' => body x;; range l' body
  end.

Section Producer.

Context {C P K : Type} `{!Connector C, !Partitioner P, !Clock K}.

Record topicMetadataCache := {
  connector : C;
  ttl : Duration;
  cache : gmap string topicMetadataCacheEntry
}.

Record KafkaProducer := {
  partitioner : P;
  keySerializer : Serializer;
  valueSerializer : Serializer;
  accumulator : RecordAccumulator;
  metadataCache : topicMetadataCache
}.

Record State := {
  producer : KafkaProducer;
  clock : K;
  chans : list Chan;
  trace : list Event
}.

(** *** Field updates *)

Definition tmc_with_connector (c : C) (t : topicMetadataCache) :=
  {| connector := c; ttl := ttl t; cache := cache t |}.

Definition tmc_with_cache (m : gmap string topicMetadataCacheEntry)
    (t : topicMetadataCache) :=
  {| connector := connector t; ttl := ttl t; cache := m |}.

Definition kp_with_metadataCache (t : topicMetadataCache) (kp : KafkaProducer) :=
  {| partitioner := partitioner kp; keySerializer := keySerializer kp;
     valueSerializer := valueSerializer kp; accumulator := accumulator kp;
     metadataCache := t |}.

Definition kp_with_partitioner (p : P) (kp : KafkaProducer) :=
  {| partitioner := p; keySerializer := keySerializer kp;
     valueSerializer := valueSerializer kp; accumulator := accumulator kp;
     metadataCache := metadataCache kp |}.

Definition kp_with_accumulator (a : RecordAccumulator) (kp : KafkaProducer) :=
  {| partitioner := partitioner kp; keySerializer := keySerializer kp;
     valueSerializer := valueSerializer kp; accumulator := a;
     metadataCache := metadataCache kp |}.

Definition with_producer (kp : KafkaProducer) (st : State) :=
  {| producer := kp; clock := clock st; chans := chans st; trace := trace st |}.

Definition with_clock (k : K) (st : State) :=
  {| producer := producer st; clock := k; chans := chans st; trace := trace st |}.

Definition with_chans (cs : list Chan) (st : State) :=
  {| producer := producer st; clock := clock st; chans := cs; trace := trace st |}.

Definition with_trace (tr : list Event) (st : State) :=
  {| producer := producer st; clock := clock st; chans := chans st; trace := tr |}.

(** Shorthands for the parts of the producer a statement looks at. *)
Definition tmc (st : State) : topicMetadataCache := metadataCache (producer st).
Definition entries (st : State) : gmap string topicMetadataCacheEntry :=
  cache (tmc st).
Definition ingress (st : State) : list ProducerRecord :=
  addChan (accumulator (producer st)).

(** *** Primitive steps *)

(** A step that always returns. *)
Definition step {A} (f : State → A * State) : M State A := λ st, Some (f st).

Definition log (e : Event) : M State unit :=
  step (λ st, (tt, with_trace (trace st ++ [e]) st)).

(** [time.Now()] *)
Definition time_Now : M State Time :=
  step (λ st, let '(t, k) := Now (clock st) in (t, with_clock k st)).

(** [tmc.cache[topic]] *)
Definition cache_lookup (topic : string) : M State (option topicMetadataCacheEntry) :=
  step (λ st, (entries st !! topic, st)).

(** [tmc.ttl] *)
Definition tmc_ttl : M State Duration := step (λ st, (ttl (tmc st), st)).

(** [tmc.cache[topic] = entry] *)
Definition cache_store (topic : string) (entry : topicMetadataCacheEntry) : M State unit :=
  step (λ st, (tt, with_producer
    (kp_with_metadataCache (tmc_with_cache (<[topic := entry]> (entries st)) (tmc st))
       (producer st)) st)).

(** [tmc.connector.GetTopicMetadata(topics)] *)
Definition connector_GetTopicMetadata (topics : list string)
    : M State (TopicMetadataResponse + error) :=
  reply ← step (λ st,
    let '(reply, c) := GetTopicMetadata topics (connector (tmc st)) in
    (reply, with_producer
       (kp_with_metadataCache (tmc_with_connector c (tmc st)) (producer st)) st));
  log (EvGetTopicMetadata topics
         match reply with inr err => Some err | inl _ => None end);;
  ret reply.

(** [kp.keySerializer(value)] and [kp.valueSerializer(value)] *)
Definition kp_keySerializer (value : GoValue) : M State (slice Byte.byte * option error) :=
  log (EvKeySerializer value);;
  step (λ st, (keySerializer (producer st) value, st)).

Definition kp_valueSerializer (value : GoValue) : M State (slice Byte.byte * option error) :=
  log (EvValueSerializer value);;
  step (λ st, (valueSerializer (producer st) value, st)).

(** [kp.partitioner.Partition(record, partitions)] *)
Definition partitioner_Partition (record : ProducerRecord) (ps : slice int32)
    : M State (int32 * option error) :=
  log (EvPartition ps);;
  step (λ st,
    let '(r, p) := Partition record ps (partitioner (producer st)) in
    (r, with_producer (kp_with_partitioner p (producer st)) st)).

(** [make(chan *RecordMetadata, n)]: the new channel is the next free
    reference. *)
Definition with_new_chan (n : nat) (st : State) : State :=
  with_chans (chans st ++ [{| cap := n; buf := [] |}]) st.

Definition make_chan (n : nat) : M State chan :=
  step (λ st, (length (chans st), with_new_chan n st)).

(** [ch <- m].  With room in the buffer the write returns at once.  With
    none it waits for a receiver, and a run of the pipeline has none. *)
Definition chan_send (ch : chan) (m : RecordMetadata) : M State unit := λ st,
  match chans st !! ch with
  | Some c =>
      if decide (length (buf c) < cap c)%nat
      then Some (tt, with_chans (<[ch := {| cap := cap c; buf := buf c ++ [m] |}]> (chans st)) st)
      else None
  | None => None
  end.

(** [kp.accumulator.addChan <- record]: the record joins the ingress; when
    the accumulator takes it off is the accumulator's business. *)
Definition addChan_send (record : ProducerRecord) : M State unit :=
  log (EvAddChan record);;
  step (λ st,
    let a := accumulator (producer st) in
    (tt, with_producer
       (kp_with_accumulator {| addChan := addChan a ++ [record]; closing := closing a |}
          (producer st)) st)).

(** Modelled from the spec: [RecordAccumulator.close()] is defined outside
    [kafka_producer.go]; section 6 has it request shutdown, and nothing
    more is said of the ingress channel. *)
Definition accumulator_close : M State unit :=
  log EvAccumulatorClose;;
  step (λ st,
    let a := accumulator (producer st) in
    (tt, with_producer
       (kp_with_accumulator {| addChan := addChan a; closing := true |}
          (producer st)) st)).

(** *** The topic metadata cache *)

Definition newTopicMetadataCache (connector : C) (ttl : Duration) : topicMetadataCache :=
  {| connector := connector; ttl := ttl; cache := ∅ |}.

Definition newTopicMetadataCacheEntry (partitions : slice int32)
    : M State topicMetadataCacheEntry :=
  now ← time_Now;
  ret {| partitions := partitions; timestamp := now |}.

(** The inner loop of [Refresh]: [partitions = append(partitions, id)]
    from [make([]int32, 0)]. *)
Definition partitionIDs (tm : TopicMetadata) : list int32 :=
  foldl (λ partitions partitionMetadata, partitions ++ [PartitionID partitionMetadata])
        [] (PartitionsMetadata tm).

(** [Refresh] holds [refreshLock] from its first statement to its return
    (the unlock is deferred); a run by one goroutine finds it free. *)
Definition Refresh (topics : list string) : M State (option error) :=
  log EvLock;;
  reply ← connector_GetTopicMetadata topics;
  match reply with
  | inr err =>
      log EvUnlock;; ret (Some err)
  | inl topicMetadataResponse =>
      range (TopicsMetadata topicMetadataResponse) (λ topicMetadata,
        entry ← newTopicMetadataCacheEntry (Some (partitionIDs topicMetadata));
        cache_store (tm_Topic topicMetadata) entry);;
      log EvUnlock;; ret None
  end.

Definition Get (topic : string) : M State (slice int32 * option error) :=
  log (EvCacheGet topic);;
  cache ← cache_lookup topic;
  err ← match cache with
         | None => Refresh [topic]
         | Some _ => ret None
         end;
  match err with
  | Some _ => ret (None, err)
  | None =>
      cache ← cache_lookup topic;
      match cache with
      | Some entry =>
          ttl ← tmc_ttl;
          now ← time_Now;
          err ← (if Before (Add (timestamp entry) ttl) now
                  then Refresh [topic]
                  else ret None);
          match err with
          | Some _ => ret (None, err)
          | None =>
              cache ← cache_lookup topic;
              match cache with
              | Some entry => ret (partitions entry, None)
              | None => ret (None, Some (CouldNotGetTopicMetadata topic))
              end
          end
      | None => ret (None, Some (CouldNotGetTopicMetadata topic))
      end
  end.

(** *** The send pipeline *)

(** [send] works on the caller's record through a pointer; the record it
    returns here is that record as [send] leaves it. *)
Definition send (record : ProducerRecord) (metadataChan : chan) : M State ProducerRecord :=
  let metadata := new_RecordMetadata in
  '(serializedKey, err) ← kp_keySerializer (Key record);
  match err with
  | Some _ => chan_send metadataChan (with_Error err metadata);; ret record
  | None =>
  '(serializedValue, err) ← kp_valueSerializer (Value record);
  match err with
  | Some _ => chan_send metadataChan (with_Error err metadata);; ret record
  | None =>
  let record := with_encoded serializedKey serializedValue record in
  '(partitions, err) ← Get (Topic record);
  match err with
  | Some _ => chan_send metadataChan (with_Error err metadata);; ret record
  | None =>
  '(partition, err) ← partitioner_Partition record partitions;
  match err with
  | Some _ => chan_send metadataChan (with_Error err metadata);; ret record
  | None =>
  let record := with_partition partition record in
  let record := with_metadataChan metadataChan record in
  addChan_send record;; ret record
  end end end end.

Definition Send (record : ProducerRecord) : M State (chan * ProducerRecord) :=
  metadata ← make_chan 1;
  record ← send record metadata;
  ret (metadata, record).

Definition Flush : M State unit := ret tt.

Definition Close (timeout : Z) : M State unit := accumulator_close.

(** *** Construction *)

(** The one field of [ProducerConfig] the send path depends on. *)
Record ProducerConfig := { MetadataExpireMs : int64 }.

(** Modelled from the spec: [NewHashPartitioner] and [NewRecordAccumulator]
    are defined outside [kafka_producer.go]; the partitioner they give is
    the argument [hashPartitioner], and a new accumulator has nothing on
    its ingress and has not been asked to close. *)
Definition NewKafkaProducer (config : ProducerConfig)
    (keySerializer valueSerializer : Serializer) (connector : C)
    (hashPartitioner : P) : KafkaProducer :=
  {| partitioner := hashPartitioner;
     keySerializer := keySerializer;
     valueSerializer := valueSerializer;
     accumulator := {| addChan := []; closing := false |};
     metadataCache :=
       newTopicMetadataCache connector (Duration_of_ms (MetadataExpireMs config)) |}.

(** A process that has just built its producer: no channel made, nothing
    logged. *)
Definition boot (kp : KafkaProducer) (k : K) : State :=
  {| producer := kp; clock := k; chans := []; trace := [] |}.

(** *** Notions the statements use *)

(** The [n]-th reading a clock will show, counting from 0, and the clock
    after [n] readings. *)
Fixpoint reading (n : nat) (k : K) : Time :=
  match n with
  | O => (Now k).1
  | S n' => reading n' (Now k).2
  end.

Fixpoint wind (n : nat) (k : K) : K :=
  match n with
  | O => k
  | S n' => wind n' (Now k).2
  end.

(** What the loop of [Refresh] leaves in the map: one entry stored per
    element of the reply, in order, each stamped with its own reading. *)
Fixpoint stored (tms : list TopicMetadata) (k : K)
    (m : gmap string topicMetadataCacheEntry) : gmap string topicMetadataCacheEntry :=
  match tms with
  | [] => m
  | tm :: tms' =>
      stored tms' (Now k).2
        (<[tm_Topic tm := {| partitions := Some (partitionIDs tm);
                             timestamp := (Now k).1 |}]> m)
  end.

(** [Get] from its second lookup on. *)
Definition Get_rest (topic : string) : M State (slice int32 * option error) :=
  cache ← cache_lookup topic;
  match cache with
  | Some entry =>
      ttl ← tmc_ttl;
      now ← time_Now;
      err ← (if Before (Add (timestamp entry) ttl) now
             then Refresh [topic]
             else ret None);
      match err with
      | Some _ => ret (None, err)
      | None =>
          cache ← cache_lookup topic;
          match cache with
          | Some entry => ret (partitions entry, None)
          | None => ret (None, Some (CouldNotGetTopicMetadata topic))
          end
      end
  | None => ret (None, Some (CouldNotGetTopicMetadata topic))
  end.

(** Everything but the cache's map, the Connector, the clock and the log
    is as it was. *)
Definition same_outside_cache (st st' : State) : Prop :=
  chans st' = chans st ∧
  accumulator (producer st') = accumulator (producer st) ∧
  partitioner (producer st') = partitioner (producer st) ∧
  keySerializer (producer st') = keySerializer (producer st) ∧
  valueSerializer (producer st') = valueSerializer (producer st) ∧
  ttl (tmc st') = ttl (tmc st).

(** A log shows a Connector call that came back with an error. *)
Definition fetch_failed (evs : list Event) : Prop :=
  ∃ topics err, EvGetTopicMetadata topics (Some err) ∈ evs.

(** The four local steps of section 4.2 in the order given there, each on
    what the steps before it left, up to the first that fails: the record
    as prepared so far, and that step's error (none when all four went
    through). *)
Definition local_steps (record : ProducerRecord) : M State (ProducerRecord * option error) :=
  '(serializedKey, err) ← kp_keySerializer (Key record);
  match err with
  | Some _ => ret (record, err)
  | None =>
  '(serializedValue, err) ← kp_valueSerializer (Value record);
  match err with
  | Some _ => ret (record, err)
  | None =>
  let record := with_encoded serializedKey serializedValue record in
  '(partitions, err) ← Get (Topic record);
  match err with
  | Some _ => ret (record, err)
  | None =>
  '(partition, err) ← partitioner_Partition record partitions;
  match err with
  | Some _ => ret (record, err)
  | None => ret (with_partition partition record, None)
  end end end end.

(** *** Notions for the log and for callers *)

(** The log of [Refresh([topic])] calls, one after another, that came
    back with the errors [errs]. *)
Fixpoint refresh_log (topic : string) (errs : list (option error)) : list Event :=
  match errs with
  | [] => []
  | err :: errs' =>
      EvLock :: EvGetTopicMetadata [topic] err :: EvUnlock :: refresh_log topic errs'
  end.

(** Reading a log against [refreshLock], from the lock held or free: the
    lock is taken only when free, released only when held, and the
    Connector is called only with the lock held.  [None] when the log
    breaks one of these; otherwise whether the lock is held at the end. *)
Fixpoint lock_run (held : bool) (evs : list Event) : option bool :=
  match evs with
  | [] => Some held
  | EvLock :: evs' => if held then None else lock_run true evs'
  | EvUnlock :: evs' => if held then lock_run false evs' else None
  | EvGetTopicMetadata _ _ :: evs' => if held then lock_run true evs' else None
  | _ :: evs' => lock_run held evs'
  end.

Definition is_key_call (e : Event) : bool :=
  match e with EvKeySerializer _ => true | _ => false end.
Definition is_value_call (e : Event) : bool :=
  match e with EvValueSerializer _ => true | _ => false end.
Definition is_cache_call (e : Event) : bool :=
  match e with EvCacheGet _ => true | _ => false end.
Definition is_partition_call (e : Event) : bool :=
  match e with EvPartition _ => true | _ => false end.
Definition is_addChan (e : Event) : bool :=
  match e with EvAddChan _ => true | _ => false end.

(** How many events of a log a test picks out. *)
Definition calls (p : Event → bool) (evs : list Event) : nat :=
  length (filter p evs).

(** A caller that sends the records one after another and keeps the
    channels. *)
Fixpoint Send_all (records : list ProducerRecord) : M State (list chan) :=
  match records with
  | [] => ret []
  | record :: rest =>
      '(ch, _) ← Send record;
      chs ← Send_all rest;
      ret (ch :: chs)
  end.

(** Channels of a list that hold nothing. *)
Definition empty_chans (cs : list Chan) : nat :=
  length (filter (λ c, buf c = []) cs).

(** Topics cached before are cached after. *)
Definition keeps_topics (st st' : State) : Prop :=
  ∀ t, is_Some (entries st !! t) → is_Some (entries st' !! t).

(** What the local steps of a [Send] may leave in the log, by their
    outcome: the calls in the order of [send], cut after the first that
    failed. *)
Definition local_log (record : ProducerRecord) (outcome : option error)
    (evs : list Event) : Prop :=
  (evs = [EvKeySerializer (Key record)] ∧ is_Some outcome) ∨
  (evs = [EvKeySerializer (Key record); EvValueSerializer (Value record)] ∧
   is_Some outcome) ∨
  (∃ errs, (length errs ≤ 2)%nat ∧ is_Some outcome ∧
     evs = [EvKeySerializer (Key record); EvValueSerializer (Value record);
            EvCacheGet (Topic record)] ++ refresh_log (Topic record) errs) ∨
  (∃ errs ps, (length errs ≤ 2)%nat ∧
     evs = [EvKeySerializer (Key record); EvValueSerializer (Value record);
            EvCacheGet (Topic record)] ++ refresh_log (Topic record) errs
           ++ [EvPartition ps]).

(** [kp.PartitionsFor(topic)] and [kp.Metrics()]: a new empty slice and a
    new empty map, whatever the producer holds. *)
Definition PartitionsFor (topic : string) : M State (list unit) := ret [].

Definition Metrics : M State (gmap string unit) := ret ∅.

End Producer.

Arguments topicMetadataCache : clear implicits.
Arguments KafkaProducer : clear implicits.
Arguments State : clear implicits.

(** ** Scripted collaborators, for running the model *)

(** A connector that answers from a script, one reply per call, and fails
    once the script is used up. *)
Definition ScriptedConnector := list (TopicMetadataResponse + error).

#[global] Instance scripted_connector : Connector ScriptedConnector :=
  λ topics c,
    match c with
    | reply :: c' => (reply, c')
    | [] => (inr (ForeignError "connection refused"), [])
    end.

(** A clock that shows the listed readings, then stays at the last. *)
Record ScriptedClock := { shown : Time; upcoming : list Time }.

#[global] Instance scripted_clock : Clock ScriptedClock :=
  λ k,
    match upcoming k with
    | t :: ts => (t, {| shown := t; upcoming := ts |})
    | [] => (shown k, k)
    end.

(** A partitioner that picks the first partition and fails on none. *)
#[global] Instance first_partitioner : Partitioner unit :=
  λ record ps p,
    match ps with
    | Some (id :: _) => ((id, None), p)
    | _ => ((-1, Some (ForeignError "no partitions")), p)
    end.

Definition topic_reply (topic : string) (ids : list int32) : TopicMetadata :=
  {| tm_Topic := topic;
     PartitionsMetadata := (λ id, {| PartitionID := id |}) <$> ids |}.

(** A producer whose cache holds ["orders"] with partitions 0, 1, 2
    fetched at instant 0, under a TTL of 5, in front of a scripted
    Connector and clock. *)
Definition orders_entry : topicMetadataCacheEntry :=
  {| partitions := Some [0; 1; 2]; timestamp := 0 |}.

Definition orders_state (script : ScriptedConnector) (times : list Time)
    : State ScriptedConnector unit ScriptedClock :=
  {| producer :=
       {| partitioner := tt;
          keySerializer := StringSerializer;
          valueSerializer := ByteSerializer;
          accumulator := {| addChan := []; closing := false |};
          metadataCache :=
            {| connector := script; ttl := 5;
               cache := {["orders" := orders_entry]} |} |};
     clock := {| shown := 0; upcoming := times |};
     chans := [];
     trace := [] |}.

(** The same producer over any cache map. *)
Definition cached_state (m : gmap string topicMetadataCacheEntry)
    (script : ScriptedConnector) (times : list Time)
    : State ScriptedConnector unit ScriptedClock :=
  {| producer :=
       {| partitioner := tt;
          keySerializer := StringSerializer;
          valueSerializer := ByteSerializer;
          accumulator := {| addChan := []; closing := false |};
          metadataCache := {| connector := script; ttl := 5; cache := m |} |};
     clock := {| shown := 0; upcoming := times |};
     chans := [];
     trace := [] |}.

(** * Properties *)

(** Symbolic execution of a run: unfold the monad and the primitive steps,
    leaving the collaborators' calls to be rewritten by hypotheses. *)
Tactic Notation "run" :=
  cbv beta iota zeta delta
    [mbind M_bind bind mret M_ret ret step log time_Now tmc_ttl cache_lookup
     cache_store connector_GetTopicMetadata kp_keySerializer kp_valueSerializer
     partitioner_Partition make_chan addChan_send accumulator_close
     newTopicMetadataCacheEntry
     with_producer with_clock with_chans with_new_chan with_trace kp_with_metadataCache
     kp_with_partitioner kp_with_accumulator tmc_with_connector tmc_with_cache
     tmc entries ingress
     producer clock chans trace metadataCache connector ttl cache accumulator
     partitioner keySerializer valueSerializer addChan closing fst snd].
Tactic Notation "run" "in" hyp(H) :=
  cbv beta iota zeta delta
    [mbind M_bind bind mret M_ret ret step log time_Now tmc_ttl cache_lookup
     cache_store connector_GetTopicMetadata kp_keySerializer kp_valueSerializer
     partitioner_Partition make_chan addChan_send accumulator_close
     newTopicMetadataCacheEntry
     with_producer with_clock with_chans with_new_chan with_trace kp_with_metadataCache
     kp_with_partitioner kp_with_accumulator tmc_with_connector tmc_with_cache
     tmc entries ingress
     producer clock chans trace metadataCache connector ttl cache accumulator
     partitioner keySerializer valueSerializer addChan closing fst snd] in H.

Section Properties.

Context {C P K : Type} `{!Connector C, !Partitioner P, !Clock K}.

Implicit Type st : State C P K.

(** ** The inner loop and the store loop of [Refresh] *)

Lemma partitionIDs_fmap tm :
  partitionIDs tm = PartitionID <$> PartitionsMetadata tm.
Proof.
  unfold partitionIDs.
  enough (G : ∀ l acc, foldl (λ ps pm, ps ++ [PartitionID pm]) acc l
                       = acc ++ (PartitionID <$> l)) by apply (G _ []).
  induction l as [|pm l IH]; intros acc; simpl.
  - by rewrite app_nil_r.
  - rewrite IH, <- app_assoc. reflexivity.
Qed.

Lemma bind_run {S A B} (m : M S A) (k : A → M S B) (s : S) :
  (m ≫= k) s = match m s with Some (a, s') => k a s' | None => None end.
Proof. reflexivity. Qed.

Lemma store_one st tm :
  (entry ← newTopicMetadataCacheEntry (Some (partitionIDs tm));
   cache_store (tm_Topic tm) entry) st
  = Some (tt,
      {| producer := kp_with_metadataCache
           (tmc_with_cache (stored [tm] (clock st) (entries st)) (tmc st)) (producer st);
         clock := wind 1 (clock st);
         chans := chans st; trace := trace st |}).
Proof.
  destruct st as [[p ks vs a [c0 d m]] k cs tr]. run. simpl.
  destruct (Now k) as [t k']. reflexivity.
Qed.

Lemma range_store st tms :
  range tms (λ topicMetadata,
    entry ← newTopicMetadataCacheEntry (Some (partitionIDs topicMetadata));
    cache_store (tm_Topic topicMetadata) entry) st
  = Some (tt,
      {| producer := kp_with_metadataCache
           (tmc_with_cache (stored tms (clock st) (entries st)) (tmc st)) (producer st);
         clock := wind (length tms) (clock st);
         chans := chans st; trace := trace st |}).
Proof.
  revert st. induction tms as [|tm tms IH]; intros st.
  - destruct st as [[p ks vs a [c0 d m]] k cs tr]. reflexivity.
  - simpl range. rewrite bind_run, store_one, IH.
    destruct st as [[p ks vs a [c0 d m]] k cs tr]. reflexivity.
Qed.

Lemma stored_lookup_notin tms k m topic :
  topic ∉ tm_Topic <$> tms → stored tms k m !! topic = m !! topic.
Proof.
  revert k m. induction tms as [|tm tms IH]; intros k m Hn; simpl; [done|].
  rewrite fmap_cons, not_elem_of_cons in Hn. destruct Hn as [Hne Hn].
  rewrite IH by done. by rewrite lookup_insert_ne.
Qed.

Lemma stored_lookup_last tms k m i tm :
  tms !! i = Some tm →
  (∀ j tm', (i < j)%nat → tms !! j = Some tm' → tm_Topic tm' ≠ tm_Topic tm) →
  stored tms k m !! tm_Topic tm
  = Some {| partitions := Some (partitionIDs tm); timestamp := reading i k |}.
Proof.
  revert k m i. induction tms as [|tm0 tms IH]; intros k m i Hi Hlast; [done|].
  destruct i as [|i]; simpl in *.
  - injection Hi as ->. rewrite stored_lookup_notin.
    + by rewrite lookup_insert_eq.
    + intros Hin. apply list_elem_of_fmap in Hin as (tm' & Heq & Hin).
      apply list_elem_of_lookup in Hin as [j Hj].
      apply (Hlast (S j) tm'); [lia|done|done].
  - apply IH; [done|]. intros j tm' Hlt Hj. apply (Hlast (S j) tm'); [lia|done].
Qed.

Lemma stored_lookup_is_Some tms k m topic :
  is_Some (m !! topic) → is_Some (stored tms k m !! topic).
Proof.
  revert k m. induction tms as [|tm tms IH]; intros k m Hs; simpl; [done|].
  apply IH. destruct (decide (tm_Topic tm = topic)) as [->|Hne].
  - rewrite lookup_insert_eq. eauto.
  - by rewrite lookup_insert_ne.
Qed.

(** ** [Refresh], by the Connector's answer *)

Lemma Refresh_fail st topics err c :
  GetTopicMetadata topics (connector (tmc st)) = (inr err, c) →
  Refresh topics st = Some (Some err,
    {| producer := kp_with_metadataCache (tmc_with_connector c (tmc st)) (producer st);
       clock := clock st; chans := chans st;
       trace := trace st ++ [EvLock; EvGetTopicMetadata topics (Some err); EvUnlock] |}).
Proof.
  destruct st as [[p ks vs a [c0 tt0 m]] k cs tr].
  intros Hc. unfold Refresh. run. run in Hc. rewrite Hc. run.
  rewrite <- !app_assoc. reflexivity.
Qed.

Lemma Refresh_ok st topics resp c :
  GetTopicMetadata topics (connector (tmc st)) = (inl resp, c) →
  Refresh topics st = Some (None,
    {| producer := kp_with_metadataCache
         {| connector := c; ttl := ttl (tmc st);
            cache := stored (TopicsMetadata resp) (clock st) (entries st) |}
         (producer st);
       clock := wind (length (TopicsMetadata resp)) (clock st);
       chans := chans st;
       trace := trace st ++ [EvLock; EvGetTopicMetadata topics None; EvUnlock] |}).
Proof.
  destruct st as [[p ks vs a [c0 tt0 m]] k cs tr].
  intros Hc. unfold Refresh. run. run in Hc. rewrite Hc. run.
  rewrite range_store. run.
  rewrite <- !app_assoc. reflexivity.
Qed.

(** ** [Get], path by path *)

Lemma Get_rest_none st topic :
  entries st !! topic = None →
  Get_rest topic st = Some ((None, Some (CouldNotGetTopicMetadata topic)), st).
Proof.
  intros He. unfold Get_rest. run. run in He. rewrite He. reflexivity.
Qed.

Lemma Get_rest_fresh st topic e now k' :
  entries st !! topic = Some e →
  Now (clock st) = (now, k') →
  Before (Add (timestamp e) (ttl (tmc st))) now = false →
  Get_rest topic st = Some ((partitions e, None), with_clock k' st).
Proof.
  intros He Hk Hb. unfold Get_rest. run. run in He. run in Hk. run in Hb.
  rewrite He, Hk. run. rewrite Hb. run. rewrite He. reflexivity.
Qed.

Lemma Get_rest_stale_fail st topic e now k' err c :
  entries st !! topic = Some e →
  Now (clock st) = (now, k') →
  Before (Add (timestamp e) (ttl (tmc st))) now = true →
  GetTopicMetadata [topic] (connector (tmc st)) = (inr err, c) →
  Get_rest topic st = Some ((None, Some err),
    {| producer := kp_with_metadataCache (tmc_with_connector c (tmc st)) (producer st);
       clock := k'; chans := chans st;
       trace := trace st ++ [EvLock; EvGetTopicMetadata [topic] (Some err); EvUnlock] |}).
Proof.
  intros He Hk Hb Hc. unfold Get_rest. run. run in He. run in Hk. run in Hb.
  rewrite He, Hk. run. rewrite Hb.
  rewrite (Refresh_fail _ _ err c) by exact Hc. reflexivity.
Qed.

Lemma Get_rest_stale_ok st topic e now k' resp c :
  entries st !! topic = Some e →
  Now (clock st) = (now, k') →
  Before (Add (timestamp e) (ttl (tmc st))) now = true →
  GetTopicMetadata [topic] (connector (tmc st)) = (inl resp, c) →
  ∃ e', stored (TopicsMetadata resp) k' (entries st) !! topic = Some e' ∧
    Get_rest topic st = Some ((partitions e', None),
      {| producer := kp_with_metadataCache
           {| connector := c; ttl := ttl (tmc st);
              cache := stored (TopicsMetadata resp) k' (entries st) |}
           (producer st);
         clock := wind (length (TopicsMetadata resp)) k';
         chans := chans st;
         trace := trace st ++ [EvLock; EvGetTopicMetadata [topic] None; EvUnlock] |}).
Proof.
  intros He Hk Hb Hc.
  destruct (stored_lookup_is_Some (TopicsMetadata resp) k' (entries st) topic)
    as [e' He']; [by rewrite He|].
  exists e'. split; [done|].
  unfold Get_rest. run. run in He. run in Hk. run in Hb. run in He'.
  rewrite He, Hk. run. rewrite Hb.
  rewrite (Refresh_ok _ _ resp c) by exact Hc. run. rewrite He'. reflexivity.
Qed.

Lemma Get_hit st topic e :
  entries st !! topic = Some e →
  Get topic st = Get_rest topic (with_trace (trace st ++ [EvCacheGet topic]) st).
Proof.
  intros He. unfold Get. run. run in He. rewrite He. reflexivity.
Qed.

Lemma Get_miss_fail st topic err c :
  entries st !! topic = None →
  GetTopicMetadata [topic] (connector (tmc st)) = (inr err, c) →
  Get topic st = Some ((None, Some err),
    {| producer := kp_with_metadataCache (tmc_with_connector c (tmc st)) (producer st);
       clock := clock st; chans := chans st;
       trace := trace st ++ [EvCacheGet topic; EvLock;
                             EvGetTopicMetadata [topic] (Some err); EvUnlock] |}).
Proof.
  intros He Hc. unfold Get. run. run in He. rewrite He.
  rewrite (Refresh_fail _ _ err c) by exact Hc. run.
  rewrite <- !app_assoc. reflexivity.
Qed.

Lemma Get_miss_ok st topic resp c :
  entries st !! topic = None →
  GetTopicMetadata [topic] (connector (tmc st)) = (inl resp, c) →
  Get topic st = Get_rest topic
    {| producer := kp_with_metadataCache
         {| connector := c; ttl := ttl (tmc st);
            cache := stored (TopicsMetadata resp) (clock st) (entries st) |}
         (producer st);
       clock := wind (length (TopicsMetadata resp)) (clock st);
       chans := chans st;
       trace := trace st ++ [EvCacheGet topic; EvLock;
                             EvGetTopicMetadata [topic] None; EvUnlock] |}.
Proof.
  intros He Hc. unfold Get. run. run in He. rewrite He.
  rewrite (Refresh_ok _ _ resp c) by exact Hc. run.
  rewrite <- !app_assoc. reflexivity.
Qed.

(** ** Reading the log *)

Lemma fetch_failed_nil : ¬ fetch_failed [].
Proof. intros (ts & err & Hin). by apply elem_of_nil in Hin. Qed.

Lemma fetch_failed_refresh_ok topics : ¬ fetch_failed [EvLock; EvGetTopicMetadata topics None; EvUnlock].
Proof.
  intros (ts & err & Hin).
  repeat (apply elem_of_cons in Hin as [Hin|Hin]; [discriminate Hin|]).
  by apply elem_of_nil in Hin.
Qed.

Lemma fetch_failed_refresh_fail topics err :
  fetch_failed [EvLock; EvGetTopicMetadata topics (Some err); EvUnlock].
Proof. exists topics, err. rewrite !elem_of_cons. auto. Qed.

Lemma fetch_failed_app l1 l2 :
  fetch_failed (l1 ++ l2) ↔ fetch_failed l1 ∨ fetch_failed l2.
Proof.
  unfold fetch_failed. split.
  - intros (ts & err & Hin). apply elem_of_app in Hin as [Hin|Hin]; eauto.
  - intros [(ts & err & Hin)|(ts & err & Hin)]; exists ts, err;
      apply elem_of_app; auto.
Qed.

Lemma stale_iff (ts d now : Z) :
  Before (Add ts d) now = true ↔ d < now - ts.
Proof. unfold Before, Add. rewrite Z.ltb_lt. lia. Qed.

Lemma Get_rest_summary st topic :
  ∃ r st' evs,
    Get_rest topic st = Some (r, st') ∧
    trace st' = trace st ++ evs ∧
    same_outside_cache st st' ∧
    (entries st !! topic = None → evs = [] ∧ entries st' = entries st) ∧
    (∀ e, entries st !! topic = Some e →
       if decide (ttl (tmc st) < (Now (clock st)).1 - timestamp e)
       then ∃ err, evs = [EvLock; EvGetTopicMetadata [topic] err; EvUnlock]
       else evs = [] ∧ r = (partitions e, None) ∧ entries st' = entries st) ∧
    (is_Some r.2 ↔ fetch_failed evs ∨ entries st' !! topic = None) ∧
    (r.2 = None → ∃ e', entries st' !! topic = Some e' ∧ r.1 = partitions e') ∧
    (is_Some r.2 → r.1 = None).
Proof.
  destruct (entries st !! topic) as [e|] eqn:He.
  - destruct (Now (clock st)) as [now k'] eqn:Hk.
    destruct (Before (Add (timestamp e) (ttl (tmc st))) now) eqn:Hb.
    + destruct (GetTopicMetadata [topic] (connector (tmc st))) as [[resp|err] c] eqn:Hc.
      * destruct (Get_rest_stale_ok st topic e now k' resp c He Hk Hb Hc)
          as (e' & He' & ->).
        eexists _, _, _. split; [reflexivity|]. split; [reflexivity|].
        split; [by repeat split|]. split; [done|]. split.
        { intros e0 [= <-]. simpl. apply stale_iff in Hb.
          rewrite decide_True by done. eauto. }
        split.
        { simpl. split.
          - intros [? [=]].
          - intros [Hf|Hn]; [by apply fetch_failed_refresh_ok in Hf|].
            change (stored (TopicsMetadata resp) k' (entries st) !! topic = None) in Hn.
            congruence. }
        split; [|by intros [? [=]]].
        intros _. exists e'. split; [exact He'|done].
      * rewrite (Get_rest_stale_fail st topic e now k' err c He Hk Hb Hc).
        eexists _, _, _. split; [reflexivity|]. split; [reflexivity|].
        split; [by repeat split|]. split; [done|]. split.
        { intros e0 [= <-]. simpl. apply stale_iff in Hb.
          rewrite decide_True by done. eauto. }
        split.
        { simpl. split; [|by eauto].
          intros _. left. apply fetch_failed_refresh_fail. }
        split; [by intros [=]|done].
    + rewrite (Get_rest_fresh st topic e now k' He Hk Hb).
      eexists _, _, []. split; [reflexivity|]. split; [by rewrite app_nil_r|].
      split; [by repeat split|]. split; [done|]. split.
      { intros e0 [= <-]. simpl.
        rewrite decide_False; [done|].
        intros Hlt. apply stale_iff in Hlt. congruence. }
      split.
      { simpl. split.
        - intros [? [=]].
        - intros [Hf|Hn]; [by apply fetch_failed_nil in Hf|].
          change (entries st !! topic = None) in Hn. congruence. }
      split; [|by intros [? [=]]].
      intros _. exists e. split; [exact He|done].
  - rewrite (Get_rest_none st topic He).
    eexists _, _, []. split; [reflexivity|]. split; [by rewrite app_nil_r|].
    split; [by repeat split|]. split; [done|]. split; [done|].
    split; [|split; [by intros [=]|done]].
    simpl. split; [by right|eauto].
Qed.

Lemma Get_summary st topic :
  ∃ r st' evs,
    Get topic st = Some (r, st') ∧
    trace st' = trace st ++ EvCacheGet topic :: evs ∧
    same_outside_cache st st' ∧
    (entries st !! topic = None →
       ∃ err rest, evs = EvLock :: EvGetTopicMetadata [topic] err :: EvUnlock :: rest) ∧
    (∀ e, entries st !! topic = Some e →
       if decide (ttl (tmc st) < (Now (clock st)).1 - timestamp e)
       then ∃ err, evs = [EvLock; EvGetTopicMetadata [topic] err; EvUnlock]
       else evs = [] ∧ r = (partitions e, None) ∧ entries st' = entries st) ∧
    (is_Some r.2 ↔ fetch_failed evs ∨ entries st' !! topic = None) ∧
    (r.2 = None → ∃ e', entries st' !! topic = Some e' ∧ r.1 = partitions e') ∧
    (is_Some r.2 → r.1 = None).
Proof.
  destruct (entries st !! topic) as [e|] eqn:He.
  - rewrite (Get_hit st topic e He).
    destruct (Get_rest_summary (with_trace (trace st ++ [EvCacheGet topic]) st) topic)
      as (r & st' & evs & Hrun & Htr & Hsame & _ & Hhit & Herr & Hok & Hnil).
    exists r, st', evs. split; [exact Hrun|].
    split; [by rewrite Htr; simpl; rewrite <- app_assoc|].
    split; [exact Hsame|]. split; [done|].
    split; [|by auto].
    intros e0 [= <-]. apply (Hhit e). exact He.
  - destruct (GetTopicMetadata [topic] (connector (tmc st))) as [[resp|err] c] eqn:Hc.
    + rewrite (Get_miss_ok st topic resp c He Hc).
      match goal with |- context [Get_rest topic ?s] => set (st1 := s) end.
      destruct (Get_rest_summary st1 topic)
        as (r & st' & evs & Hrun & Htr & Hsame & _ & _ & Herr & Hok & Hnil).
      exists r, st', ([EvLock; EvGetTopicMetadata [topic] None; EvUnlock] ++ evs).
      split; [exact Hrun|].
      split; [by rewrite Htr; simpl; rewrite <- app_assoc|].
      split; [exact Hsame|]. split; [by eauto|]. split; [done|].
      split; [|by auto].
      rewrite Herr, fetch_failed_app.
      pose proof (fetch_failed_refresh_ok [topic]). tauto.
    + rewrite (Get_miss_fail st topic err c He Hc).
      eexists _, _, _. split; [reflexivity|]. split; [reflexivity|].
      split; [by repeat split|]. split; [by eauto|]. split; [done|].
      split; [|split; [by intros [=]|done]].
      simpl. split; [|by eauto].
      intros _. left. apply fetch_failed_refresh_fail.
Qed.

Lemma last_occurrence (tms : list TopicMetadata) topic :
  topic ∈ tm_Topic <$> tms →
  ∃ i tm, tms !! i = Some tm ∧ tm_Topic tm = topic ∧
    ∀ j tm', (i < j)%nat → tms !! j = Some tm' → tm_Topic tm' ≠ topic.
Proof.
  induction tms as [|tm0 tms IH]; intros Hin; [by apply elem_of_nil in Hin|].
  destruct (decide (topic ∈ tm_Topic <$> tms)) as [Hlater|Hnot].
  - destruct (IH Hlater) as (i & tm & Hi & Ht & Hlast).
    exists (S i), tm. split; [done|]. split; [done|].
    intros [|j] tm' Hlt Hj; [lia|]. apply (Hlast j tm'); [lia|done].
  - rewrite fmap_cons in Hin. apply elem_of_cons in Hin as [->|Hin]; [|done].
    exists 0%nat, tm0. split; [done|]. split; [done|].
    intros [|j] tm' Hlt Hj; [lia|]. simpl in Hj.
    intros Heq. apply Hnot. rewrite <- Heq.
    apply list_elem_of_fmap. exists tm'. split; [done|].
    apply list_elem_of_lookup. eauto.
Qed.

(** ** The cache: what the spec says of it *)

(** C2, as amended.  [Get(topic)] always returns.  With no entry it runs
    [Refresh([topic])] first.  With an entry it runs [Refresh([topic])]
    when the entry's age [now - timestamp] is strictly greater than the
    TTL, and otherwise (an age equal to the TTL included) makes no fetch,
    leaves the map alone and returns the cached list.  It returns an
    error exactly when a fetch it made failed or no entry exists when it
    returns; without an error it returns the list of the entry then in
    the map. *)
Theorem Get_refresh_policy st topic :
  ∃ r st' evs,
    Get topic st = Some (r, st') ∧
    trace st' = trace st ++ EvCacheGet topic :: evs ∧
    (entries st !! topic = None →
       ∃ err rest, evs = EvLock :: EvGetTopicMetadata [topic] err :: EvUnlock :: rest) ∧
    (∀ e, entries st !! topic = Some e →
       if decide (ttl (tmc st) < (Now (clock st)).1 - timestamp e)
       then ∃ err, evs = [EvLock; EvGetTopicMetadata [topic] err; EvUnlock]
       else evs = [] ∧ r = (partitions e, None) ∧ entries st' = entries st) ∧
    (is_Some r.2 ↔ fetch_failed evs ∨ entries st' !! topic = None) ∧
    (r.2 = None → ∃ e', entries st' !! topic = Some e' ∧ r.1 = partitions e').
Proof.
  destruct (Get_summary st topic)
    as (r & st' & evs & Hrun & Htr & _ & Hmiss & Hhit & Herr & Hok & _).
  exists r, st', evs. auto 10.
Qed.

(** C3.  An entry is cached whose age is at least the TTL.  If the log of
    [Get] shows that the fetch it made came back with an error, [Get]
    returns that error and a nil list, not the cached one.  That is what
    happens whenever the age exceeds the TTL and the Connector answers the
    fetch with an error, and the entry is then still in the map. *)
Theorem Get_stale_refresh_failure st topic e :
  entries st !! topic = Some e →
  ttl (tmc st) ≤ (Now (clock st)).1 - timestamp e →
  ∃ r st' evs,
    Get topic st = Some (r, st') ∧
    trace st' = trace st ++ evs ∧
    (∀ topics err, EvGetTopicMetadata topics (Some err) ∈ evs → r = (None, Some err)) ∧
    (ttl (tmc st) < (Now (clock st)).1 - timestamp e →
     ∀ err c, GetTopicMetadata [topic] (connector (tmc st)) = (inr err, c) →
       r = (None, Some err) ∧ entries st' !! topic = Some e).
Proof.
  intros He _. rewrite (Get_hit st topic e He).
  set (st0 := with_trace (trace st ++ [EvCacheGet topic]) st).
  assert (He0 : entries st0 !! topic = Some e) by exact He.
  destruct (Now (clock st)) as [now k'] eqn:Hk.
  destruct (Before (Add (timestamp e) (ttl (tmc st))) now) eqn:Hb.
  - destruct (GetTopicMetadata [topic] (connector (tmc st))) as [[resp|err] c] eqn:Hc.
    + destruct (Get_rest_stale_ok st0 topic e now k' resp c He0 Hk Hb Hc)
        as (e' & He' & ->).
      eexists _, _, _. split; [reflexivity|].
      split; [simpl; by rewrite <- app_assoc|].
      split; [|by intros _ err c' [=]].
      intros ts err Hin. simpl in Hin.
      repeat (apply elem_of_cons in Hin as [Hin|Hin]; [discriminate Hin|]).
      by apply elem_of_nil in Hin.
    + rewrite (Get_rest_stale_fail st0 topic e now k' err c He0 Hk Hb Hc).
      eexists _, _, _. split; [reflexivity|].
      split; [simpl; by rewrite <- app_assoc|].
      split; [|by intros _ err' c' [= -> ->]].
      intros ts err' Hin. simpl in Hin.
      apply elem_of_cons in Hin as [Hin|Hin]; [discriminate Hin|].
      apply elem_of_cons in Hin as [Hin|Hin]; [discriminate Hin|].
      apply elem_of_cons in Hin as [Hin|Hin]; [by injection Hin as -> ->|].
      apply elem_of_cons in Hin as [Hin|Hin]; [discriminate Hin|].
      by apply elem_of_nil in Hin.
  - rewrite (Get_rest_fresh st0 topic e now k' He0 Hk Hb).
    eexists _, _, _. split; [reflexivity|]. split; [reflexivity|].
    split.
    + intros ts err Hin.
      apply elem_of_cons in Hin as [Hin|Hin]; [discriminate Hin|].
      by apply elem_of_nil in Hin.
    + simpl. intros Hlt. apply stale_iff in Hlt. congruence.
Qed.

(** C4.  When the Connector answers [Refresh(topics)] with an error,
    [Refresh] returns that error and the map from topics to entries is
    the map it found. *)
Theorem Refresh_failure_keeps_cache st topics err c :
  GetTopicMetadata topics (connector (tmc st)) = (inr err, c) →
  ∃ st', Refresh topics st = Some (Some err, st') ∧ entries st' = entries st.
Proof.
  intros Hc. rewrite (Refresh_fail st topics err c Hc). eauto.
Qed.

(** C5.  After a [Refresh] the Connector answered, every topic of the
    reply has the entry built from the reply alone: the partition IDs the
    reply lists for it (those of its last listing, should the reply list
    a topic twice), stamped with the clock reading taken as the entry was
    built.  Whatever the map held for the topic before plays no part, and
    a [Get] that finds this entry no older than the TTL returns exactly
    that list. *)
Theorem Refresh_replaces_wholesale st topics resp c :
  GetTopicMetadata topics (connector (tmc st)) = (inl resp, c) →
  ∃ st', Refresh topics st = Some (None, st') ∧
    ∀ topic, topic ∈ tm_Topic <$> TopicsMetadata resp →
      ∃ i tm,
        TopicsMetadata resp !! i = Some tm ∧ tm_Topic tm = topic ∧
        (∀ j tm', (i < j)%nat → TopicsMetadata resp !! j = Some tm' →
                  tm_Topic tm' ≠ topic) ∧
        entries st' !! topic
          = Some {| partitions := Some (PartitionID <$> PartitionsMetadata tm);
                    timestamp := reading i (clock st) |} ∧
        ∀ st2 : State C P K,
          entries st2 !! topic = entries st' !! topic →
          ¬ ttl (tmc st2) < (Now (clock st2)).1 - reading i (clock st) →
          ∃ st3, Get topic st2
                 = Some ((Some (PartitionID <$> PartitionsMetadata tm), None), st3).
Proof.
  intros Hc. rewrite (Refresh_ok st topics resp c Hc).
  eexists. split; [reflexivity|].
  intros topic Hin.
  destruct (last_occurrence _ _ Hin) as (i & tm & Hi & <- & Hlast).
  exists i, tm. split; [done|]. split; [done|]. split; [done|].
  assert (Hnew : stored (TopicsMetadata resp) (clock st) (entries st) !! tm_Topic tm
                 = Some {| partitions := Some (PartitionID <$> PartitionsMetadata tm);
                           timestamp := reading i (clock st) |}).
  { rewrite (stored_lookup_last _ _ _ i tm Hi Hlast), partitionIDs_fmap. done. }
  split; [exact Hnew|].
  intros st2 He2 Hfresh.
  change (entries st2 !! tm_Topic tm
          = stored (TopicsMetadata resp) (clock st) (entries st) !! tm_Topic tm) in He2.
  rewrite Hnew in He2.
  rewrite (Get_hit st2 _ _ He2).
  destruct (Now (clock st2)) as [now k'] eqn:Hk.
  simpl in Hfresh.
  rewrite (Get_rest_fresh (with_trace _ st2) _ _ now k' He2 Hk); [eauto|].
  simpl. destruct (Before _ _) eqn:Hb; [|done].
  apply stale_iff in Hb. done.
Qed.

(** C10.  An entry is cached whose age is at least the TTL, and the
    Connector's answer to a fetch of the topic is a reply that does not
    list it.  Then [Get] returns the cached list with no error and the
    entry, timestamp included, stays in the map.  When the age exceeds
    the TTL, which is when [Get] refreshes, the log shows that one fetch
    and the Connector has been called, and every later [Get] that finds
    the same entry under the same TTL, on a clock that has not gone back,
    fetches again. *)
Theorem Get_stale_topic_not_in_reply st topic e resp c :
  entries st !! topic = Some e →
  ttl (tmc st) ≤ (Now (clock st)).1 - timestamp e →
  GetTopicMetadata [topic] (connector (tmc st)) = (inl resp, c) →
  topic ∉ tm_Topic <$> TopicsMetadata resp →
  ∃ st' evs,
    Get topic st = Some ((partitions e, None), st') ∧
    trace st' = trace st ++ evs ∧
    entries st' !! topic = Some e ∧
    (ttl (tmc st) < (Now (clock st)).1 - timestamp e →
     evs = [EvCacheGet topic; EvLock; EvGetTopicMetadata [topic] None; EvUnlock] ∧
     connector (tmc st') = c ∧
     ∀ st2 : State C P K,
       entries st2 !! topic = Some e →
       ttl (tmc st2) = ttl (tmc st) →
       (Now (clock st)).1 ≤ (Now (clock st2)).1 →
       ∃ r st3 err,
         Get topic st2 = Some (r, st3) ∧
         trace st3 = trace st2 ++ [EvCacheGet topic; EvLock;
                                   EvGetTopicMetadata [topic] err; EvUnlock]).
Proof.
  intros He _ Hc Hnot. rewrite (Get_hit st topic e He).
  set (st0 := with_trace (trace st ++ [EvCacheGet topic]) st).
  assert (He0 : entries st0 !! topic = Some e) by exact He.
  destruct (Now (clock st)) as [now k'] eqn:Hk.
  destruct (Before (Add (timestamp e) (ttl (tmc st))) now) eqn:Hb.
  - destruct (Get_rest_stale_ok st0 topic e now k' resp c He0 Hk Hb Hc)
      as (e' & He' & ->).
    rewrite stored_lookup_notin in He' by done.
    assert (e' = e) as -> by congruence.
    eexists _, _. split; [reflexivity|].
    split; [simpl; by rewrite <- app_assoc|].
    split.
    { change (stored (TopicsMetadata resp) k' (entries st) !! topic = Some e).
      by rewrite stored_lookup_notin. }
    intros _. split; [reflexivity|]. split; [reflexivity|].
    intros st2 He2 Httl Hmono. simpl in Hmono.
    apply stale_iff in Hb.
    destruct (Get_summary st2 topic)
      as (r & st3 & evs & Hrun & Htr & _ & _ & Hhit & _).
    specialize (Hhit e He2). rewrite decide_True in Hhit by lia.
    destruct Hhit as [err ->]. eauto.
  - rewrite (Get_rest_fresh st0 topic e now k' He0 Hk Hb).
    eexists _, _. split; [reflexivity|]. split; [reflexivity|].
    split; [exact He|].
    simpl. intros Hlt. apply stale_iff in Hlt. congruence.
Qed.

(** ** The pipeline *)

Lemma chan_send_fresh st cs md :
  chans st = cs ++ [{| cap := 1; buf := [] |}] →
  chan_send (length cs) md st
  = Some (tt, with_chans (cs ++ [{| cap := 1; buf := [md] |}]) st).
Proof.
  intros Hcs. unfold chan_send. rewrite Hcs.
  rewrite list_lookup_middle by done. cbn [buf cap length].
  destruct (decide (0 < 1)%nat) as [_|Hn]; [|lia].
  replace (length cs) with (length cs + 0)%nat at 1 by lia.
  rewrite insert_app_r. reflexivity.
Qed.

(** [send] is the local steps, then one of two deliveries. *)
Lemma send_factor record ch st :
  send record ch st
  = ('(prepared, outcome) ← local_steps record;
     match outcome with
     | Some _ =>
         chan_send ch (with_Error outcome new_RecordMetadata);; ret prepared
     | None =>
         addChan_send (with_metadataChan ch prepared);;
         ret (with_metadataChan ch prepared)
     end) st.
Proof.
  destruct st as [[p ks vs a [c0 d m]] k cs tr].
  unfold send, local_steps. run.
  destruct (ks (Key record)) as [sk [e|]]; [reflexivity|].
  destruct (vs (Value record)) as [sv [e|]]; [reflexivity|].
  destruct (Get _ _) as [[[ps [e|]] st2]|]; [reflexivity| |reflexivity].
  destruct (Partition _ _ _) as [[p1 [e|]] p']; reflexivity.
Qed.

Lemma local_steps_summary st record :
  ∃ prepared outcome st1,
    local_steps record st = Some ((prepared, outcome), st1) ∧
    chans st1 = chans st ∧
    accumulator (producer st1) = accumulator (producer st).
Proof.
  destruct st as [[p ks vs a [c0 d m]] k cs tr].
  unfold local_steps. run.
  destruct (ks (Key record)) as [sk [e|]]; [by eauto 10|].
  destruct (vs (Value record)) as [sv [e|]]; [by eauto 10|].
  match goal with |- context [Get ?t ?s] =>
    destruct (Get_summary s t) as (r & st2 & evs & Hrun & _ & Hsame & _)
  end.
  destruct Hsame as (Hch & Hacc & _).
  rewrite Hrun. destruct r as [ps [e|]]; [by eauto 10|].
  destruct (Partition _ _ _) as [[p1 [e|]] p']; eauto 10.
Qed.




(** C9.  [StringSerializer] succeeds on values of dynamic type string
    and on no others, so it returns an error for nil, while
    [ByteSerializer] returns a nil slice and no error for nil.
    [NewKafkaProducer] keeps the key serializer it is given, and a
    producer whose key serializer is [StringSerializer] fails [Send] at
    the key for a record with no key: the channel holds the serializer's
    error and no later step has been called. *)
Theorem nil_key_by_serializer st record :
  keySerializer (producer st) = StringSerializer →
  Key record = VNil →
  (∀ value, (StringSerializer value).2 = None ↔ ∃ str, value = VString str) ∧
  StringSerializer VNil = (None, Some (CantSerializeToString VNil)) ∧
  ByteSerializer VNil = (None, None) ∧
  (∀ config valueSerializer (connector : C) (hashPartitioner : P),
     keySerializer (NewKafkaProducer config StringSerializer valueSerializer
                      connector hashPartitioner) = StringSerializer) ∧
  ∃ st',
    Send record st = Some ((length (chans st), record), st') ∧
    chans st' = chans st ++
      [{| cap := 1;
          buf := [with_Error (Some (CantSerializeToString VNil)) new_RecordMetadata] |}] ∧
    trace st' = trace st ++ [EvKeySerializer VNil].
Proof.
  intros Hks Hkey. split.
  { intros value. split.
    - destruct value; try discriminate. eauto.
    - by intros [str ->]. }
  split; [reflexivity|]. split; [reflexivity|]. split; [reflexivity|].
  destruct st as [[p ks vs a [c0 d m]] k cs tr]. simpl in Hks. subst ks.
  unfold Send, send. run. rewrite Hkey. cbv beta iota delta [StringSerializer].
  match goal with |- context [chan_send ?c ?md ?s] =>
    rewrite (chan_send_fresh s cs md) by reflexivity
  end.
  eexists. split; [reflexivity|]. done.
Qed.

End Properties.

(** * The statements at concrete runs *)

(** Section 8, property 3: with a TTL of 5 and an entry fetched at 0, a
    [Get] at 3 makes no fetch and a [Get] at 6 makes exactly one. *)
Example Get_at_3_no_fetch :
  ∃ st', Get "orders" (orders_state [] [3]) = Some ((Some [0; 1; 2], None), st') ∧
         fetches (trace st') = 0%nat.
Proof. eexists. split; [vm_compute; reflexivity|]. reflexivity. Qed.

Example Get_at_6_one_fetch :
  ∃ r st',
    Get "orders" (orders_state [inl {| TopicsMetadata := [topic_reply "orders" [0; 1; 2]] |}] [6])
    = Some (r, st') ∧
    fetches (trace st') = 1%nat.
Proof. eexists _, _. split; [vm_compute; reflexivity|]. reflexivity. Qed.

(** C2 fails as stated.  At instant 5 the entry fetched at 0 is as old
    as the TTL of 5, yet [Get] makes no fetch and serves the cached list.
    At instant 6 the fetch is made; when it fails, [Get] returns an error
    although the entry is still in the map. *)
Lemma Get_at_age_ttl_serves_cache :
  entries (orders_state [] [5]) !! "orders" = Some orders_entry ∧
  (Now (clock (orders_state [] [5]))).1 - timestamp orders_entry
    = ttl (tmc (orders_state [] [5])) ∧
  (∃ st', Get "orders" (orders_state [] [5]) = Some ((Some [0; 1; 2], None), st') ∧
          trace st' = [EvCacheGet "orders"] ∧
          fetches (trace st') = 0%nat) ∧
  (∃ st', Get "orders" (orders_state [inr (ForeignError "timeout")] [6])
          = Some ((None, Some (ForeignError "timeout")), st') ∧
          entries st' !! "orders" = Some orders_entry).
Proof.
  split; [reflexivity|]. split; [reflexivity|]. split.
  - eexists. split; [vm_compute; reflexivity|]. split; reflexivity.
  - eexists. split; [vm_compute; reflexivity|]. reflexivity.
Qed.

(** C3 at instant 6: the entry is older than the TTL, the fetch times out,
    and [Get] returns the timeout and no list. *)
Lemma Get_stale_refresh_failure_witness :
  ∃ r st' evs,
    Get "orders" (orders_state [inr (ForeignError "timeout")] [6]) = Some (r, st') ∧
    trace st' = trace (orders_state [inr (ForeignError "timeout")] [6]) ++ evs ∧
    (∀ topics err, EvGetTopicMetadata topics (Some err) ∈ evs → r = (None, Some err)) ∧
    (ttl (tmc (orders_state [inr (ForeignError "timeout")] [6]))
       < (Now (clock (orders_state [inr (ForeignError "timeout")] [6]))).1
         - timestamp orders_entry →
     ∀ err c,
       GetTopicMetadata ["orders"]
         (connector (tmc (orders_state [inr (ForeignError "timeout")] [6])))
       = (inr err, c) →
       r = (None, Some err) ∧ entries st' !! "orders" = Some orders_entry).
Proof.
  apply (Get_stale_refresh_failure
           (orders_state [inr (ForeignError "timeout")] [6]) "orders" orders_entry).
  - reflexivity.
  - simpl. lia.
Defined.

(** C4 on the same producer: the failed [Refresh] leaves the map alone. *)
Lemma Refresh_failure_keeps_cache_witness :
  ∃ st',
    Refresh ["orders"; "payments"] (orders_state [inr (ForeignError "timeout")] [])
    = Some (Some (ForeignError "timeout"), st') ∧
    entries st' = entries (orders_state [inr (ForeignError "timeout")] []).
Proof.
  apply (Refresh_failure_keeps_cache
           (orders_state [inr (ForeignError "timeout")] [])
           ["orders"; "payments"] (ForeignError "timeout") []).
  reflexivity.
Defined.

(** C5 on the same producer: the reply lists partitions 0 and 7 for
    ["orders"], and 0 and 7 are what the new entry holds. *)
Lemma Refresh_replaces_wholesale_witness :
  ∃ st',
    Refresh ["orders"]
      (orders_state [inl {| TopicsMetadata := [topic_reply "orders" [0; 7]] |}] [9])
    = Some (None, st') ∧
    ∀ topic,
      topic ∈ tm_Topic <$> [topic_reply "orders" [0; 7]] →
      ∃ i tm,
        [topic_reply "orders" [0; 7]] !! i = Some tm ∧ tm_Topic tm = topic ∧
        (∀ j tm', (i < j)%nat → [topic_reply "orders" [0; 7]] !! j = Some tm' →
                  tm_Topic tm' ≠ topic) ∧
        entries st' !! topic
          = Some {| partitions := Some (PartitionID <$> PartitionsMetadata tm);
                    timestamp := reading i {| shown := 0; upcoming := [9] |} |} ∧
        ∀ st2 : State ScriptedConnector unit ScriptedClock,
          entries st2 !! topic = entries st' !! topic →
          ¬ ttl (tmc st2)
            < (Now (clock st2)).1 - reading i {| shown := 0; upcoming := [9] |} →
          ∃ st3, Get topic st2
                 = Some ((Some (PartitionID <$> PartitionsMetadata tm), None), st3).
Proof.
  apply (Refresh_replaces_wholesale
           (orders_state [inl {| TopicsMetadata := [topic_reply "orders" [0; 7]] |}] [9])
           ["orders"] {| TopicsMetadata := [topic_reply "orders" [0; 7]] |} []).
  reflexivity.
Defined.

(** C10 at instant 6, the entry being older than the TTL of 5: the
    Connector answers with a reply that lists no topic at all, [Get]
    fetches once and serves the cached list, and later [Get]s fetch
    again. *)
Lemma Get_stale_topic_not_in_reply_witness :
  ∃ st',
    Get "orders" (orders_state [inl {| TopicsMetadata := [] |}] [6])
    = Some ((partitions orders_entry, None), st') ∧
    trace st' = [EvCacheGet "orders"; EvLock;
                 EvGetTopicMetadata ["orders"] None; EvUnlock] ∧
    entries st' !! "orders" = Some orders_entry ∧
    connector (tmc st') = [] ∧
    ∀ st2 : State ScriptedConnector unit ScriptedClock,
      entries st2 !! "orders" = Some orders_entry →
      ttl (tmc st2) = 5 →
      6 ≤ (Now (clock st2)).1 →
      ∃ r st3 err,
        Get "orders" st2 = Some (r, st3) ∧
        trace st3 = trace st2 ++ [EvCacheGet "orders"; EvLock;
                                  EvGetTopicMetadata ["orders"] err; EvUnlock].
Proof.
  destruct (Get_stale_topic_not_in_reply
              (orders_state [inl {| TopicsMetadata := [] |}] [6]) "orders" orders_entry
              {| TopicsMetadata := [] |} [])
    as (st' & evs & Hrun & Htr & He & Hstale).
  - reflexivity.
  - simpl. lia.
  - reflexivity.
  - simpl. apply not_elem_of_nil.
  - destruct Hstale as (-> & Hc & Hlater); [simpl; lia|].
    exists st'. split; [exact Hrun|]. split; [exact Htr|]. split; [exact He|].
    split; [exact Hc|]. exact Hlater.
Defined.



(** C9 on a producer just built with [StringSerializer] for keys. *)
Lemma nil_key_by_serializer_witness :
  (∀ value, (StringSerializer value).2 = None ↔ ∃ str, value = VString str) ∧
  StringSerializer VNil = (None, Some (CantSerializeToString VNil)) ∧
  ByteSerializer VNil = (None, None) ∧
  (∀ config valueSerializer (connector : ScriptedConnector) (hashPartitioner : unit),
     keySerializer (NewKafkaProducer config StringSerializer valueSerializer
                      connector hashPartitioner) = StringSerializer) ∧
  ∃ st',
    Send (record_of "orders" VNil (VBytes (Some [])))
         (boot (NewKafkaProducer {| MetadataExpireMs := 5 |} StringSerializer
                  ByteSerializer [] tt) {| shown := 0; upcoming := [] |})
    = Some ((0%nat, record_of "orders" VNil (VBytes (Some []))), st') ∧
    chans st' = [] ++
      [{| cap := 1;
          buf := [with_Error (Some (CantSerializeToString VNil)) new_RecordMetadata] |}] ∧
    trace st' = [] ++ [EvKeySerializer VNil].
Proof.
  apply (nil_key_by_serializer
           (boot (NewKafkaProducer {| MetadataExpireMs := 5 |} StringSerializer
                    ByteSerializer ([] : ScriptedConnector) tt)
                 {| shown := 0; upcoming := [] |})
           (record_of "orders" VNil (VBytes (Some [])))).
  - reflexivity.
  - reflexivity.
Defined.

(** * More of the code *)

Section Coverage.

Context {C P K : Type} `{!Connector C, !Partitioner P, !Clock K}.

Implicit Type st : State C P K.

(** ** Clock and map after the store loop *)

Lemma reading_wind n (k : K) : (Now (wind n k)).1 = reading n k.
Proof. revert k. induction n as [|n IH]; intros k; simpl; [done|apply IH]. Qed.

Lemma stored_dom tms (k : K) (m : gmap string topicMetadataCacheEntry) :
  dom (stored tms k m) = dom m ∪ list_to_set (tm_Topic <$> tms).
Proof.
  revert k m. induction tms as [|tm tms IH]; intros k m; simpl.
  - by rewrite union_empty_r_L.
  - rewrite IH, dom_insert_L.
    rewrite (union_comm_L {[tm_Topic tm]} (dom m)), <- union_assoc_L. done.
Qed.

(** ** The shape of [Get]'s log *)

Lemma Get_rest_shape st topic :
  ∃ r st' errs,
    Get_rest topic st = Some (r, st') ∧
    trace st' = trace st ++ refresh_log topic errs ∧
    (length errs ≤ 1)%nat ∧
    same_outside_cache st st' ∧
    keeps_topics st st'.
Proof.
  destruct (entries st !! topic) as [e|] eqn:He.
  - destruct (Now (clock st)) as [now k'] eqn:Hk.
    destruct (Before (Add (timestamp e) (ttl (tmc st))) now) eqn:Hb.
    + destruct (GetTopicMetadata [topic] (connector (tmc st))) as [[resp|err] c] eqn:Hc.
      * destruct (Get_rest_stale_ok st topic e now k' resp c He Hk Hb Hc)
          as (e' & He' & ->).
        eexists _, _, [None].
        split; [reflexivity|]. split; [reflexivity|]. split; [simpl; lia|].
        split; [by repeat split|].
        intros t Ht. by apply stored_lookup_is_Some.
      * rewrite (Get_rest_stale_fail st topic e now k' err c He Hk Hb Hc).
        eexists _, _, [Some err].
        split; [reflexivity|]. split; [reflexivity|]. split; [simpl; lia|].
        split; [by repeat split|]. by intros t Ht.
    + rewrite (Get_rest_fresh st topic e now k' He Hk Hb).
      eexists _, _, [].
      split; [reflexivity|]. split; [by rewrite app_nil_r|]. split; [simpl; lia|].
      split; [by repeat split|]. by intros t Ht.
  - rewrite (Get_rest_none st topic He).
    eexists _, _, [].
    split; [reflexivity|]. split; [by rewrite app_nil_r|]. split; [simpl; lia|].
    split; [by repeat split|]. by intros t Ht.
Qed.

Lemma Get_shape st topic :
  ∃ r st' errs,
    Get topic st = Some (r, st') ∧
    trace st' = trace st ++ EvCacheGet topic :: refresh_log topic errs ∧
    (length errs ≤ 2)%nat ∧
    (is_Some (entries st !! topic) → (length errs ≤ 1)%nat) ∧
    same_outside_cache st st' ∧
    keeps_topics st st'.
Proof.
  destruct (entries st !! topic) as [e|] eqn:He.
  - rewrite (Get_hit st topic e He).
    destruct (Get_rest_shape (with_trace (trace st ++ [EvCacheGet topic]) st) topic)
      as (r & st' & errs & Hrun & Htr & Hlen & Hsame & Hkeep).
    exists r, st', errs. split; [exact Hrun|].
    split; [by rewrite Htr; simpl; rewrite <- app_assoc|].
    split; [lia|]. split; [done|]. split; [exact Hsame|exact Hkeep].
  - destruct (GetTopicMetadata [topic] (connector (tmc st))) as [[resp|err] c] eqn:Hc.
    + rewrite (Get_miss_ok st topic resp c He Hc).
      match goal with |- context [Get_rest topic ?s] => set (st1 := s) end.
      destruct (Get_rest_shape st1 topic)
        as (r & st' & errs & Hrun & Htr & Hlen & Hsame & Hkeep).
      exists r, st', (None :: errs). split; [exact Hrun|].
      split; [by rewrite Htr; simpl; rewrite <- app_assoc|].
      split; [simpl; lia|]. split; [by intros [? [=]]|].
      split; [exact Hsame|].
      intros t Ht. apply Hkeep.
      change (is_Some (stored (TopicsMetadata resp) (clock st) (entries st) !! t)).
      by apply stored_lookup_is_Some.
    + rewrite (Get_miss_fail st topic err c He Hc).
      eexists _, _, [Some err].
      split; [reflexivity|]. split; [reflexivity|]. split; [simpl; lia|].
      split; [by intros [? [=]]|]. split; [by repeat split|]. by intros t Ht.
Qed.

(** ** The shape of [Send]'s log *)

Lemma local_steps_shape st record :
  ∃ prepared outcome st1 evs,
    local_steps record st = Some ((prepared, outcome), st1) ∧
    trace st1 = trace st ++ evs ∧
    local_log record outcome evs ∧
    chans st1 = chans st ∧
    accumulator (producer st1) = accumulator (producer st) ∧
    keeps_topics st st1.
Proof.
  destruct st as [[p ks vs a [c0 d m]] k cs tr].
  unfold local_steps. run.
  destruct (ks (Key record)) as [sk [e|]].
  { eexists _, _, _, _. split; [reflexivity|]. split; [reflexivity|].
    split; [left; eauto|]. split; [done|]. split; [done|]. by intros t Ht. }
  destruct (vs (Value record)) as [sv [e|]].
  { eexists _, _, _, _. split; [reflexivity|].
    split; [simpl; by rewrite <- app_assoc|].
    split; [right; left; eauto|]. split; [done|]. split; [done|]. by intros t Ht. }
  match goal with |- context [Get ?t ?s] =>
    destruct (Get_shape s t)
      as (r & st2 & errs & Hrun & Htr & Hlen & _ & Hsame & Hkeep)
  end.
  destruct Hsame as (Hch & Hacc & _).
  rewrite Hrun. destruct st2 as [[p2 ks2 vs2 a2 [c2 d2 m2]] k2 cs2 tr2].
  simpl in Htr, Hch, Hacc. subst tr2 cs2 a2.
  destruct r as [ps [e|]].
  { eexists _, _, _, _. split; [reflexivity|].
    split; [simpl; by rewrite <- !app_assoc|].
    split; [right; right; left; exists errs; eauto|].
    split; [done|]. split; [done|]. exact Hkeep. }
  destruct (Partition _ _ _) as [[p1 [e|]] p'].
  - eexists _, _, _, _. split; [reflexivity|].
    split; [simpl; by rewrite <- !app_assoc|].
    split; [right; right; right; exists errs, ps; eauto|].
    split; [done|]. split; [done|]. exact Hkeep.
  - eexists _, _, _, _. split; [reflexivity|].
    split; [simpl; by rewrite <- !app_assoc|].
    split; [right; right; right; exists errs, ps; eauto|].
    split; [done|]. split; [done|]. exact Hkeep.
Qed.

Lemma Send_shape st record :
  ∃ outcome sent st' evs b,
    Send record st = Some ((length (chans st), sent), st') ∧
    local_log record outcome evs ∧
    trace st' = trace st ++ evs ++
      match outcome with None => [EvAddChan sent] | Some _ => [] end ∧
    chans st' = chans st ++ [{| cap := 1; buf := b |}] ∧
    match outcome with
    | Some err =>
        b = [with_Error (Some err) new_RecordMetadata] ∧ ingress st' = ingress st
    | None => b = [] ∧ ingress st' = ingress st ++ [sent]
    end ∧
    keeps_topics st st'.
Proof.
  destruct (local_steps_shape (with_new_chan 1 st) record)
    as (prepared & outcome & st1 & evs & Hls & Htr & Hlog & Hch & Hacc & Hkeep).
  exists outcome.
  unfold Send. rewrite bind_run.
  change (make_chan 1 st) with (Some (length (chans st), with_new_chan 1 st)).
  cbv beta iota. rewrite bind_run, send_factor, bind_run, Hls.
  destruct outcome as [err|].
  - rewrite bind_run, (chan_send_fresh st1 (chans st)) by exact Hch.
    eexists _, _, evs, _. split; [reflexivity|]. split; [exact Hlog|].
    split; [simpl; by rewrite app_nil_r|]. split; [reflexivity|].
    split; [|exact Hkeep].
    split; [done|]. unfold ingress. simpl. by rewrite Hacc.
  - destruct st1 as [[p ks vs a [c0 d m]] k cs tr].
    simpl in Hch, Hacc, Htr. subst.
    eexists _, _, evs, _. split; [reflexivity|]. split; [exact Hlog|].
    split; [simpl; by rewrite <- app_assoc|]. split; [reflexivity|].
    split; [|exact Hkeep]. done.
Qed.

(** ** Counting in logs *)

Lemma calls_app p l1 l2 : calls p (l1 ++ l2) = (calls p l1 + calls p l2)%nat.
Proof. unfold calls. by rewrite filter_app, length_app. Qed.

Lemma fetches_app l1 l2 : fetches (l1 ++ l2) = (fetches l1 + fetches l2)%nat.
Proof. unfold fetches. by rewrite filter_app, length_app. Qed.

Lemma fetches_refresh_log topic errs :
  fetches (refresh_log topic errs) = length errs.
Proof.
  induction errs as [|err errs IH]; [done|].
  change (refresh_log topic (err :: errs))
    with ([EvLock; EvGetTopicMetadata [topic] err; EvUnlock] ++ refresh_log topic errs).
  rewrite fetches_app, IH. reflexivity.
Qed.

Lemma calls_refresh_log p topic errs :
  p EvLock = false → p EvUnlock = false →
  (∀ ts err, p (EvGetTopicMetadata ts err) = false) →
  calls p (refresh_log topic errs) = 0%nat.
Proof.
  intros HL HU HF. induction errs as [|err errs IH]; [done|].
  unfold calls in *. simpl.
  rewrite !filter_cons, HL, HU, HF. simpl. exact IH.
Qed.

Lemma lock_run_refresh_log topic errs rest :
  lock_run false (refresh_log topic errs ++ rest) = lock_run false rest.
Proof. induction errs as [|err errs IH]; [done|]. simpl. exact IH. Qed.

(** ** The cache, further *)

(** X1.  [Get] calls the Connector at most twice, and at most once when
    it finds an entry; every call is for the one topic asked and sits
    between taking and releasing the lock. *)
Theorem Get_fetch_bound st topic :
  ∃ r st' errs,
    Get topic st = Some (r, st') ∧
    trace st' = trace st ++ EvCacheGet topic :: refresh_log topic errs ∧
    (length errs ≤ 2)%nat ∧
    (is_Some (entries st !! topic) → (length errs ≤ 1)%nat) ∧
    fetches (trace st') = (fetches (trace st) + length errs)%nat.
Proof.
  destruct (Get_shape st topic) as (r & st' & errs & Hrun & Htr & Hlen & Hhit & _).
  exists r, st', errs. split; [exact Hrun|]. split; [exact Htr|].
  split; [exact Hlen|]. split; [exact Hhit|].
  rewrite Htr, fetches_app.
  change (EvCacheGet topic :: refresh_log topic errs)
    with ([EvCacheGet topic] ++ refresh_log topic errs).
  rewrite fetches_app, fetches_refresh_log. reflexivity.
Qed.

(** X2.  A [Refresh] the Connector answers stores an entry for every
    topic the reply lists, asked for or not, and touches no other: the
    cached topics are the old ones and the reply's, the other entries are
    as they were, and the clock has been read once per listing. *)
Theorem Refresh_stores_the_reply st topics resp c :
  GetTopicMetadata topics (connector (tmc st)) = (inl resp, c) →
  ∃ st',
    Refresh topics st = Some (None, st') ∧
    dom (entries st') = dom (entries st) ∪ list_to_set (tm_Topic <$> TopicsMetadata resp) ∧
    (∀ t, t ∉ tm_Topic <$> TopicsMetadata resp → entries st' !! t = entries st !! t) ∧
    clock st' = wind (length (TopicsMetadata resp)) (clock st) ∧
    trace st' = trace st ++ [EvLock; EvGetTopicMetadata topics None; EvUnlock].
Proof.
  intros Hc. rewrite (Refresh_ok st topics resp c Hc).
  eexists. split; [reflexivity|].
  split; [apply stored_dom|].
  split; [|done].
  intros t Ht. by apply stored_lookup_notin.
Qed.

(** X3.  An entry older than the TTL, and a reply that lists the topic:
    this very [Get] returns the partition IDs of the reply (of its last
    listing of the topic), not the cached ones, after one fetch, and the
    new entry is stamped with the reading taken as it was stored. *)
Theorem Get_stale_returns_refreshed st topic e resp c i tm :
  entries st !! topic = Some e →
  ttl (tmc st) < (Now (clock st)).1 - timestamp e →
  GetTopicMetadata [topic] (connector (tmc st)) = (inl resp, c) →
  TopicsMetadata resp !! i = Some tm →
  tm_Topic tm = topic →
  (∀ j tm', (i < j)%nat → TopicsMetadata resp !! j = Some tm' → tm_Topic tm' ≠ topic) →
  ∃ st',
    Get topic st = Some ((Some (PartitionID <$> PartitionsMetadata tm), None), st') ∧
    entries st' !! topic
      = Some {| partitions := Some (PartitionID <$> PartitionsMetadata tm);
                timestamp := reading i (Now (clock st)).2 |} ∧
    trace st' = trace st ++ [EvCacheGet topic; EvLock;
                             EvGetTopicMetadata [topic] None; EvUnlock].
Proof.
  intros He Hstale Hc Hi Htopic Hlast. subst topic.
  rewrite (Get_hit st _ e He).
  set (st0 := with_trace (trace st ++ [EvCacheGet (tm_Topic tm)]) st).
  assert (He0 : entries st0 !! tm_Topic tm = Some e) by exact He.
  destruct (Now (clock st)) as [now k'] eqn:Hk. simpl in Hstale.
  apply stale_iff in Hstale.
  destruct (Get_rest_stale_ok st0 _ e now k' resp c He0 Hk Hstale Hc)
    as (e' & He' & ->).
  assert (Hnew : stored (TopicsMetadata resp) k' (entries st) !! tm_Topic tm
                 = Some {| partitions := Some (PartitionID <$> PartitionsMetadata tm);
                           timestamp := reading i k' |}).
  { by rewrite (stored_lookup_last _ _ _ i tm Hi Hlast), partitionIDs_fmap. }
  change (stored (TopicsMetadata resp) k' (entries st) !! tm_Topic tm = Some e') in He'.
  rewrite Hnew in He'. injection He' as <-.
  eexists. split; [reflexivity|]. split; [exact Hnew|].
  simpl. by rewrite <- app_assoc.
Qed.

(** X4.  No entry, and a reply that does not list the topic: [Get]
    returns a nil list and the error "Could not get topic metadata" after
    exactly one fetch, the topic is still uncached, and the topics the
    reply does list are cached all the same. *)
Theorem Get_unknown_topic st topic resp c :
  entries st !! topic = None →
  GetTopicMetadata [topic] (connector (tmc st)) = (inl resp, c) →
  topic ∉ tm_Topic <$> TopicsMetadata resp →
  ∃ st',
    Get topic st = Some ((None, Some (CouldNotGetTopicMetadata topic)), st') ∧
    entries st' !! topic = None ∧
    (∀ t, t ∈ tm_Topic <$> TopicsMetadata resp → is_Some (entries st' !! t)) ∧
    trace st' = trace st ++ [EvCacheGet topic; EvLock;
                             EvGetTopicMetadata [topic] None; EvUnlock].
Proof.
  intros He Hc Hnot. rewrite (Get_miss_ok st topic resp c He Hc).
  match goal with |- context [Get_rest topic ?s] => set (st1 := s) end.
  assert (He1 : entries st1 !! topic = None).
  { change (stored (TopicsMetadata resp) (clock st) (entries st) !! topic = None).
    by rewrite stored_lookup_notin. }
  rewrite (Get_rest_none st1 topic He1).
  eexists. split; [reflexivity|]. split; [exact He1|]. split; [|done].
  intros t Ht. apply elem_of_dom.
  change (t ∈ dom (stored (TopicsMetadata resp) (clock st) (entries st))).
  rewrite stored_dom. apply elem_of_union_r. by apply elem_of_list_to_set.
Qed.

(** The state [Get] is in after a first [Refresh] the Connector answered:
    how it goes on from the entry just stored. *)
Lemma Get_miss_listed st topic resp c i tm :
  entries st !! topic = None →
  GetTopicMetadata [topic] (connector (tmc st)) = (inl resp, c) →
  TopicsMetadata resp !! i = Some tm →
  tm_Topic tm = topic →
  (∀ j tm', (i < j)%nat → TopicsMetadata resp !! j = Some tm' → tm_Topic tm' ≠ topic) →
  ∃ st1 : State C P K,
    Get topic st = Get_rest topic st1 ∧
    entries st1 !! topic
      = Some {| partitions := Some (PartitionID <$> PartitionsMetadata tm);
                timestamp := reading i (clock st) |} ∧
    (Now (clock st1)).1 = reading (length (TopicsMetadata resp)) (clock st) ∧
    ttl (tmc st1) = ttl (tmc st) ∧
    connector (tmc st1) = c ∧
    trace st1 = trace st ++ [EvCacheGet topic; EvLock;
                             EvGetTopicMetadata [topic] None; EvUnlock].
Proof.
  intros He Hc Hi Htopic Hlast. subst topic.
  rewrite (Get_miss_ok st _ resp c He Hc).
  eexists. split; [reflexivity|]. split.
  - change (stored (TopicsMetadata resp) (clock st) (entries st) !! tm_Topic tm
            = Some {| partitions := Some (PartitionID <$> PartitionsMetadata tm);
                      timestamp := reading i (clock st) |}).
    by rewrite (stored_lookup_last _ _ _ i tm Hi Hlast), partitionIDs_fmap.
  - split; [apply reading_wind|]. done.
Qed.

Lemma wind_succ n (k : K) : wind (S n) k = (Now (wind n k)).2.
Proof. revert k. induction n as [|n IH]; intros k; [done|]. exact (IH (Now k).2). Qed.

(** X5.  No entry, and a reply that lists the topic: [Get] stores the
    entry, reads the clock again, and when the new entry is by then no
    older than the TTL returns the reply's partition IDs after exactly one
    fetch.  When it returns the map holds the new entry for the topic,
    stamped with the reading taken as it was stored, the clock has been
    read once per listing of the reply and once more, and the Connector
    has been called. *)
Theorem Get_miss_returns_fetched st topic resp c i tm :
  entries st !! topic = None →
  GetTopicMetadata [topic] (connector (tmc st)) = (inl resp, c) →
  TopicsMetadata resp !! i = Some tm →
  tm_Topic tm = topic →
  (∀ j tm', (i < j)%nat → TopicsMetadata resp !! j = Some tm' → tm_Topic tm' ≠ topic) →
  reading (length (TopicsMetadata resp)) (clock st) - reading i (clock st)
    ≤ ttl (tmc st) →
  ∃ st',
    Get topic st = Some ((Some (PartitionID <$> PartitionsMetadata tm), None), st') ∧
    entries st' !! topic
      = Some {| partitions := Some (PartitionID <$> PartitionsMetadata tm);
                timestamp := reading i (clock st) |} ∧
    entries st' = stored (TopicsMetadata resp) (clock st) (entries st) ∧
    clock st' = wind (S (length (TopicsMetadata resp))) (clock st) ∧
    connector (tmc st') = c ∧
    trace st' = trace st ++ [EvCacheGet topic; EvLock;
                             EvGetTopicMetadata [topic] None; EvUnlock].
Proof.
  intros He Hc Hi Htopic Hlast Hfresh. subst topic.
  rewrite (Get_miss_ok st _ resp c He Hc).
  match goal with |- context [Get_rest _ ?s] => set (st1 := s) end.
  assert (He1 : entries st1 !! tm_Topic tm
                = Some {| partitions := Some (PartitionID <$> PartitionsMetadata tm);
                          timestamp := reading i (clock st) |}).
  { change (stored (TopicsMetadata resp) (clock st) (entries st) !! tm_Topic tm
            = Some {| partitions := Some (PartitionID <$> PartitionsMetadata tm);
                      timestamp := reading i (clock st) |}).
    by rewrite (stored_lookup_last _ _ _ i tm Hi Hlast), partitionIDs_fmap. }
  pose proof (reading_wind (length (TopicsMetadata resp)) (clock st)) as Hnow.
  pose proof (wind_succ (length (TopicsMetadata resp)) (clock st)) as Hwind.
  destruct (Now (wind (length (TopicsMetadata resp)) (clock st))) as [now k'] eqn:Hk.
  simpl in Hnow, Hwind. subst now k'.
  rewrite (Get_rest_fresh st1 _ _ _ _ He1 Hk).
  - eexists. split; [reflexivity|]. split; [exact He1|]. done.
  - simpl. destruct (Before _ _) eqn:Hb; [|done].
    apply stale_iff in Hb. lia.
Qed.

(** X6.  No entry, a reply that lists the topic, and an entry that is
    older than the TTL at the reading [Get] takes right after storing it
    (a TTL below zero, or a clock that moved on by more than the TTL
    meanwhile): [Get] fetches a second time. *)
Theorem Get_miss_fetches_twice st topic resp c i tm :
  entries st !! topic = None →
  GetTopicMetadata [topic] (connector (tmc st)) = (inl resp, c) →
  TopicsMetadata resp !! i = Some tm →
  tm_Topic tm = topic →
  (∀ j tm', (i < j)%nat → TopicsMetadata resp !! j = Some tm' → tm_Topic tm' ≠ topic) →
  ttl (tmc st)
    < reading (length (TopicsMetadata resp)) (clock st) - reading i (clock st) →
  ∃ r st' err,
    Get topic st = Some (r, st') ∧
    r.2 = err ∧
    trace st' = trace st ++ [EvCacheGet topic;
                             EvLock; EvGetTopicMetadata [topic] None; EvUnlock;
                             EvLock; EvGetTopicMetadata [topic] err; EvUnlock] ∧
    fetches (trace st') = (fetches (trace st) + 2)%nat.
Proof.
  intros He Hc Hi Htopic Hlast Hstale.
  destruct (Get_miss_listed st topic resp c i tm He Hc Hi Htopic Hlast)
    as (st1 & -> & He1 & Hnow & Httl & _ & Htr).
  destruct (Now (clock st1)) as [now k'] eqn:Hk. simpl in Hnow. subst now.
  assert (Hb : Before (Add (timestamp
                 {| partitions := Some (PartitionID <$> PartitionsMetadata tm);
                    timestamp := reading i (clock st) |}) (ttl (tmc st1)))
                 (reading (length (TopicsMetadata resp)) (clock st)) = true).
  { apply stale_iff. simpl. rewrite Httl. exact Hstale. }
  destruct (GetTopicMetadata [topic] (connector (tmc st1))) as [[resp2|err] c2] eqn:Hc2.
  - destruct (Get_rest_stale_ok st1 topic _ _ k' resp2 c2 He1 Hk Hb Hc2)
      as (e' & He' & ->).
    eexists _, _, None. split; [reflexivity|]. split; [reflexivity|].
    simpl. rewrite Htr, <- app_assoc. split; [reflexivity|].
    rewrite fetches_app. reflexivity.
  - rewrite (Get_rest_stale_fail st1 topic _ _ k' err c2 He1 Hk Hb Hc2).
    eexists _, _, (Some err). split; [reflexivity|]. split; [reflexivity|].
    simpl. rewrite Htr, <- app_assoc. split; [reflexivity|].
    rewrite fetches_app. reflexivity.
Qed.

(** X7.  The cache works: after a [Get] that returned a list, a second
    [Get] of the topic that finds the entry no older than the TTL makes
    no fetch, returns the same list and leaves the map as it is. *)
Theorem Get_again_within_ttl st topic ps st' :
  Get topic st = Some ((ps, None), st') →
  (∀ e', entries st' !! topic = Some e' →
         (Now (clock st')).1 - timestamp e' ≤ ttl (tmc st')) →
  ∃ st'',
    Get topic st' = Some ((ps, None), st'') ∧
    trace st'' = trace st' ++ [EvCacheGet topic] ∧
    entries st'' = entries st'.
Proof.
  intros Hrun Hfresh.
  destruct (Get_summary st topic)
    as (r & st1 & evs & Hrun' & _ & _ & _ & _ & _ & Hok & _).
  rewrite Hrun in Hrun'. injection Hrun' as <- <-.
  destruct (Hok eq_refl) as (e' & He' & Hps). simpl in Hps. subst ps.
  specialize (Hfresh e' He').
  rewrite (Get_hit st' topic e' He').
  destruct (Now (clock st')) as [now k'] eqn:Hk. simpl in Hfresh.
  rewrite (Get_rest_fresh (with_trace _ st') topic e' now k' He' Hk).
  - eexists. split; [reflexivity|]. done.
  - destruct (Before _ _) eqn:Hb; [|done].
    apply stale_iff in Hb.
    change (ttl (tmc st') < now - timestamp e') in Hb. lia.
Qed.

(** ** The pipeline, further *)

(** X8.  Throughout a [Send] the lock is used in order: it is taken only
    when free, the Connector is called only while it is held, and it is
    free again when [Send] returns. *)
Theorem Send_lock_discipline st record :
  ∃ r st' evs,
    Send record st = Some (r, st') ∧
    trace st' = trace st ++ evs ∧
    lock_run false evs = Some false.
Proof.
  destruct (Send_shape st record)
    as (outcome & sent & st' & evs & b & Hrun & Hlog & Htr & _).
  eexists _, st', _. split; [exact Hrun|]. split; [exact Htr|].
  destruct Hlog as [[-> [err ->]]|[[-> [err ->]]|[(errs & _ & [err ->] & ->)|(errs & ps & _ & ->)]]].
  - reflexivity.
  - reflexivity.
  - simpl. rewrite app_nil_r.
    rewrite <- (app_nil_r (refresh_log _ _)). apply lock_run_refresh_log.
  - simpl. rewrite <- app_assoc, lock_run_refresh_log.
    destruct outcome; reflexivity.
Qed.

(** X9.  In one [Send] the key serializer is called exactly once and
    before anything else, and the value serializer, the cache, the
    partitioner and the accumulator's ingress at most once each; the
    Connector is called at most twice. *)
Theorem Send_call_counts st record :
  ∃ r st' evs,
    Send record st = Some (r, st') ∧
    trace st' = trace st ++ evs ∧
    head evs = Some (EvKeySerializer (Key record)) ∧
    calls is_key_call evs = 1%nat ∧
    (calls is_value_call evs ≤ 1)%nat ∧
    (calls is_cache_call evs ≤ 1)%nat ∧
    (fetches evs ≤ 2)%nat ∧
    (calls is_partition_call evs ≤ 1)%nat ∧
    (calls is_addChan evs ≤ 1)%nat.
Proof.
  destruct (Send_shape st record)
    as (outcome & sent & st' & evs & b & Hrun & Hlog & Htr & _).
  eexists _, st', _. split; [exact Hrun|]. split; [exact Htr|].
  destruct Hlog as [[-> [err ->]]|[[-> [err ->]]|[(errs & Hlen & [err ->] & ->)|(errs & ps & Hlen & ->)]]].
  - repeat split; simpl; try reflexivity; unfold calls, fetches; simpl; lia.
  - repeat split; simpl; try reflexivity; unfold calls, fetches; simpl; lia.
  - rewrite app_nil_r. split; [reflexivity|].
    rewrite !calls_app, fetches_app, fetches_refresh_log.
    rewrite !calls_refresh_log by done.
    repeat split; unfold calls, fetches; simpl; lia.
  - split; [reflexivity|].
    rewrite !calls_app, !fetches_app, fetches_refresh_log.
    rewrite !calls_refresh_log by done.
    destruct outcome; repeat split; unfold calls, fetches; simpl; lia.
Qed.





(** X14.  Any number of [Send]s, one after another: each returns a new
    channel of its own (the next free references, in order), none writes
    to a channel made before it, every new channel has capacity 1 and
    holds at most one result, and the records are all accounted for: the
    ingress has grown by as many records as there are new channels still
    empty.  Topics cached at the start are cached at the end. *)
Theorem Send_all_accounts st records :
  ∃ chs st' new,
    Send_all records st = Some (chs, st') ∧
    chs = seq (length (chans st)) (length records) ∧
    chans st' = chans st ++ new ∧
    length new = length records ∧
    Forall (λ c, cap c = 1%nat ∧ (length (buf c) ≤ 1)%nat) new ∧
    length (ingress st') = (length (ingress st) + empty_chans new)%nat ∧
    keeps_topics st st'.
Proof.
  revert st. induction records as [|record rest IH]; intros st.
  - exists [], st, []. split; [reflexivity|]. split; [reflexivity|].
    split; [by rewrite app_nil_r|]. split; [reflexivity|].
    split; [constructor|]. split; [simpl; unfold empty_chans; simpl; lia|].
    by intros t Ht.
  - destruct (Send_shape st record)
      as (outcome & sent & st1 & evs & b & Hrun & _ & _ & Hch & Hout & Hkeep).
    destruct (IH st1) as (chs & st' & new & Hall & Hchs & Hch' & Hlen & Hcap & Hin & Hkeep').
    exists (length (chans st) :: chs), st', ({| cap := 1; buf := b |} :: new).
    split.
    { simpl. rewrite bind_run, Hrun. cbv beta iota.
      rewrite bind_run, Hall. reflexivity. }
    split.
    { rewrite Hchs, Hch, length_app. simpl.
      by replace (length (chans st) + 1)%nat with (S (length (chans st))) by lia. }
    split; [by rewrite Hch', Hch, <- app_assoc|].
    split; [simpl; by rewrite Hlen|].
    split.
    { constructor; [|exact Hcap]. simpl. split; [done|].
      destruct outcome; destruct Hout as [-> _]; simpl; lia. }
    split.
    { rewrite Hin. unfold empty_chans. rewrite filter_cons. simpl.
      destruct outcome; destruct Hout as [-> Hing]; rewrite Hing; simpl;
        rewrite ?length_app; simpl; lia. }
    intros t Ht. apply Hkeep', Hkeep, Ht.
Qed.

(** ** Construction and the serializers *)

Lemma wrap64_range z : - 2 ^ 63 ≤ wrap64 z < 2 ^ 63.
Proof.
  unfold wrap64.
  pose proof (Z.mod_pos_bound (z + 2 ^ 63) (2 ^ 64) ltac:(lia)). lia.
Qed.

Lemma wrap64_congruent z : (wrap64 z - z) mod 2 ^ 64 = 0.
Proof.
  unfold wrap64. rewrite (Z.mod_eq (z + 2 ^ 63) (2 ^ 64)) by lia.
  replace (z + 2 ^ 63 - 2 ^ 64 * ((z + 2 ^ 63) / 2 ^ 64) - 2 ^ 63 - z)
    with (- ((z + 2 ^ 63) / 2 ^ 64) * 2 ^ 64) by lia.
  apply Z_mod_mult.
Qed.

Lemma wrap64_small z : - 2 ^ 63 ≤ z < 2 ^ 63 → wrap64 z = z.
Proof. intros Hz. unfold wrap64. rewrite Z.mod_small by lia. lia. Qed.

(** X15.  A producer just built has an empty cache, and its TTL is
    [MetadataExpireMs] milliseconds counted in nanoseconds by an int64
    product: always an int64 congruent to the product modulo 2^64, and
    the product itself as long as [MetadataExpireMs] is between
    -9223372036854 and 9223372036854. *)
Theorem NewKafkaProducer_ttl config keySerializer valueSerializer
    (connector : C) (hashPartitioner : P) :
  let built := metadataCache (NewKafkaProducer config keySerializer valueSerializer
                                connector hashPartitioner) in
  cache built = ∅ ∧
  - 2 ^ 63 ≤ ttl built < 2 ^ 63 ∧
  (ttl built - MetadataExpireMs config * 1000000) mod 2 ^ 64 = 0 ∧
  (- 9223372036854 ≤ MetadataExpireMs config ≤ 9223372036854 →
   ttl built = MetadataExpireMs config * 1000000).
Proof.
  simpl. unfold Duration_of_ms, Millisecond.
  split; [reflexivity|]. split; [apply wrap64_range|].
  split; [apply wrap64_congruent|].
  intros Hms. apply wrap64_small. lia.
Qed.

(** X16.  [StringSerializer] never returns nil for a string and loses
    nothing: the bytes give the string back, so two strings with the same
    bytes are the same string.  [ByteSerializer] hands a byte slice back
    as it is, and succeeds on nil and on byte slices only. *)
Theorem serializers_lossless :
  (∀ str, ∃ bytes,
     StringSerializer (VString str) = (Some bytes, None) ∧
     String.string_of_list_byte bytes = str) ∧
  (∀ str str', (StringSerializer (VString str)).1 = (StringSerializer (VString str')).1 ↔
               str = str') ∧
  (∀ array, ByteSerializer (VBytes array) = (array, None)) ∧
  (∀ value, (ByteSerializer value).2 = None ↔
            value = VNil ∨ ∃ array, value = VBytes array).
Proof.
  split.
  { intros str. eexists. split; [reflexivity|].
    apply String.string_of_list_byte_of_string. }
  split.
  { intros str str'. split; [|by intros ->].
    simpl. intros [= Heq].
    rewrite <- (String.string_of_list_byte_of_string str),
            <- (String.string_of_list_byte_of_string str').
    by rewrite Heq. }
  split; [reflexivity|].
  intros value. split.
  - destruct value; try discriminate; eauto.
  - intros [->|[array ->]]; reflexivity.
Qed.

(** X17.  [Get] works on the cache alone: whatever path it takes, the
    channels, the accumulator, the partitioner, the two serializers and
    the TTL are as they were when it returns, and no topic that was
    cached has lost its entry. *)
Theorem Get_touches_only_the_cache st topic :
  ∃ r st',
    Get topic st = Some (r, st') ∧
    chans st' = chans st ∧
    accumulator (producer st') = accumulator (producer st) ∧
    partitioner (producer st') = partitioner (producer st) ∧
    keySerializer (producer st') = keySerializer (producer st) ∧
    valueSerializer (producer st') = valueSerializer (producer st) ∧
    ttl (tmc st') = ttl (tmc st) ∧
    (∀ t, is_Some (entries st !! t) → is_Some (entries st' !! t)).
Proof.
  destruct (Get_shape st topic) as (r & st' & errs & Hrun & _ & _ & _ & Hsame & Hkeep).
  destruct Hsame as (? & ? & ? & ? & ? & ?).
  exists r, st'. auto 10.
Qed.

End Coverage.

(** * The further statements at concrete runs *)

(** X2: ["orders"] is asked for and the reply lists ["payments"]. *)
Lemma Refresh_stores_the_reply_witness :
  ∃ st',
    Refresh ["orders"]
      (orders_state [inl {| TopicsMetadata := [topic_reply "payments" [0; 1]] |}] [4])
    = Some (None, st') ∧
    dom (entries st')
    = dom (entries (orders_state
             [inl {| TopicsMetadata := [topic_reply "payments" [0; 1]] |}] [4]))
      ∪ list_to_set (tm_Topic <$> [topic_reply "payments" [0; 1]]) ∧
    (∀ t, t ∉ tm_Topic <$> [topic_reply "payments" [0; 1]] →
          entries st' !! t
          = entries (orders_state
              [inl {| TopicsMetadata := [topic_reply "payments" [0; 1]] |}] [4]) !! t) ∧
    clock st' = wind 1 {| shown := 0; upcoming := [4] |} ∧
    trace st' = [] ++ [EvLock; EvGetTopicMetadata ["orders"] None; EvUnlock].
Proof.
  apply (Refresh_stores_the_reply
           (orders_state [inl {| TopicsMetadata := [topic_reply "payments" [0; 1]] |}] [4])
           ["orders"] {| TopicsMetadata := [topic_reply "payments" [0; 1]] |} []).
  reflexivity.
Defined.

(** X3: at instant 6 the reply lists partitions 0 and 7 for ["orders"]. *)
Lemma Get_stale_returns_refreshed_witness :
  ∃ st',
    Get "orders"
      (orders_state [inl {| TopicsMetadata := [topic_reply "orders" [0; 7]] |}] [6; 6])
    = Some ((Some (PartitionID <$> PartitionsMetadata (topic_reply "orders" [0; 7])),
             None), st') ∧
    entries st' !! "orders"
      = Some {| partitions :=
                  Some (PartitionID <$> PartitionsMetadata (topic_reply "orders" [0; 7]));
                timestamp := reading 0 (Now {| shown := 0; upcoming := [6; 6] |}).2 |} ∧
    trace st' = [] ++ [EvCacheGet "orders"; EvLock;
                       EvGetTopicMetadata ["orders"] None; EvUnlock].
Proof.
  apply (Get_stale_returns_refreshed
           (orders_state [inl {| TopicsMetadata := [topic_reply "orders" [0; 7]] |}] [6; 6])
           "orders" orders_entry
           {| TopicsMetadata := [topic_reply "orders" [0; 7]] |} [] 0
           (topic_reply "orders" [0; 7])).
  - reflexivity.
  - simpl. lia.
  - reflexivity.
  - reflexivity.
  - reflexivity.
  - intros [|j] tm' Hlt Hj; [lia|discriminate Hj].
Defined.

(** X4: ["payments"] is not cached and the reply lists ["orders"] only. *)
Lemma Get_unknown_topic_witness :
  ∃ st',
    Get "payments"
      (orders_state [inl {| TopicsMetadata := [topic_reply "orders" [0]] |}] [1])
    = Some ((None, Some (CouldNotGetTopicMetadata "payments")), st') ∧
    entries st' !! "payments" = None ∧
    (∀ t, t ∈ tm_Topic <$> [topic_reply "orders" [0]] → is_Some (entries st' !! t)) ∧
    trace st' = [] ++ [EvCacheGet "payments"; EvLock;
                       EvGetTopicMetadata ["payments"] None; EvUnlock].
Proof.
  apply (Get_unknown_topic
           (orders_state [inl {| TopicsMetadata := [topic_reply "orders" [0]] |}] [1])
           "payments" {| TopicsMetadata := [topic_reply "orders" [0]] |} []).
  - reflexivity.
  - reflexivity.
  - simpl. intros Hin. apply list_elem_of_singleton in Hin. discriminate Hin.
Defined.

(** X5: ["payments"] is fetched, stamped at 10, and read again at 12. *)
Lemma Get_miss_returns_fetched_witness :
  ∃ st',
    Get "payments"
      (orders_state [inl {| TopicsMetadata := [topic_reply "payments" [3]] |}] [10; 12])
    = Some ((Some (PartitionID <$> PartitionsMetadata (topic_reply "payments" [3])),
             None), st') ∧
    entries st' !! "payments"
      = Some {| partitions :=
                  Some (PartitionID <$> PartitionsMetadata (topic_reply "payments" [3]));
                timestamp := reading 0 {| shown := 0; upcoming := [10; 12] |} |} ∧
    entries st'
      = stored [topic_reply "payments" [3]] {| shown := 0; upcoming := [10; 12] |}
          (entries (orders_state
             [inl {| TopicsMetadata := [topic_reply "payments" [3]] |}] [10; 12])) ∧
    clock st' = wind 2 {| shown := 0; upcoming := [10; 12] |} ∧
    connector (tmc st') = [] ∧
    trace st' = [] ++ [EvCacheGet "payments"; EvLock;
                       EvGetTopicMetadata ["payments"] None; EvUnlock].
Proof.
  apply (Get_miss_returns_fetched
           (orders_state [inl {| TopicsMetadata := [topic_reply "payments" [3]] |}] [10; 12])
           "payments" {| TopicsMetadata := [topic_reply "payments" [3]] |} [] 0
           (topic_reply "payments" [3])).
  - reflexivity.
  - reflexivity.
  - reflexivity.
  - reflexivity.
  - intros [|j] tm' Hlt Hj; [lia|discriminate Hj].
  - simpl. lia.
Defined.

(** X6: ["payments"] is fetched, stamped at 10, and read again at 20. *)
Lemma Get_miss_fetches_twice_witness :
  ∃ r st' err,
    Get "payments"
      (orders_state [inl {| TopicsMetadata := [topic_reply "payments" [3]] |}] [10; 20])
    = Some (r, st') ∧
    r.2 = err ∧
    trace st' = [] ++ [EvCacheGet "payments";
                       EvLock; EvGetTopicMetadata ["payments"] None; EvUnlock;
                       EvLock; EvGetTopicMetadata ["payments"] err; EvUnlock] ∧
    fetches (trace st') = (fetches [] + 2)%nat.
Proof.
  apply (Get_miss_fetches_twice
           (orders_state [inl {| TopicsMetadata := [topic_reply "payments" [3]] |}] [10; 20])
           "payments" {| TopicsMetadata := [topic_reply "payments" [3]] |} [] 0
           (topic_reply "payments" [3])).
  - reflexivity.
  - reflexivity.
  - reflexivity.
  - reflexivity.
  - intros [|j] tm' Hlt Hj; [lia|discriminate Hj].
  - simpl. lia.
Defined.

(** X7: a [Get] at 3 and again at 4, under the TTL of 5. *)
Lemma Get_again_within_ttl_witness :
  ∃ st'',
    Get "orders"
      {| producer := producer (orders_state [] [3; 4]);
         clock := {| shown := 3; upcoming := [4] |};
         chans := [];
         trace := [EvCacheGet "orders"] |}
    = Some ((Some [0; 1; 2], None), st'') ∧
    trace st'' = [EvCacheGet "orders"] ++ [EvCacheGet "orders"] ∧
    entries st'' = entries (orders_state [] [3; 4]).
Proof.
  apply (Get_again_within_ttl (orders_state [] [3; 4]) "orders" (Some [0; 1; 2])
           {| producer := producer (orders_state [] [3; 4]);
              clock := {| shown := 3; upcoming := [4] |};
              chans := [];
              trace := [EvCacheGet "orders"] |}).
  - vm_compute. reflexivity.
  - intros e' He'. vm_compute in He'. injection He' as <-. simpl. lia.
Defined.




